(** * regexp-named: named submatches on top of Go's [regexp] package

    A shallow embedding of the package [regexp_named] (the scanner
    [parseBytes], the table builder [buildMap], the constructor [Compile]
    and the projection helpers [mapRe] / [mapReAll] with the eight
    [Find...Named] methods) and of its earlier revisions (module
    [regex_named]), together with the properties of its specification and
    further properties of the code.

    Conventions of the embedding:
    - a Go [[]byte] is a [list byte]; a Go [string] is a Rocq [string]
      (both are byte sequences, [string(b)] is [string_of_list_byte]);
    - a [rune] and a byte value are numbers in [N];
    - a Go [map[string]int] is a [gmap string nat];
    - a slice that the code compares with [nil] is an [option] of its
      model; a slice is modelled by the list of its elements, and by a
      [slice], which holds the rest of its backing array besides, where the
      code re-slices it up to an upper bound;
    - a function that can return an [error] or panic returns a [result]. *)

From Stdlib Require Import NArith ZArith Lia List.
From Stdlib.Strings Require Import Byte String.
From stdpp Require Import gmap strings list fin_maps.

Local Open Scope N_scope.
Local Open Scope nat_scope.

(** ** Errors, panics and results *)

(** The two kinds of [error] values that flow through the package:
    those made by [errors.New] in this package and the [*syntax.Error]
    values returned by [regexp.Compile]. *)
Inductive error : Type :=
| errors_New (msg : string)
| syntax_Error (code expr : string).

(** Outcome of a Go call: a value, a returned [error], or a run-time panic
    (index or slice bounds out of range). *)
Inductive result (A : Type) : Type :=
| Ok (a : A)
| Err (e : error)
| Panic.
Arguments Ok {A} a.
Arguments Err {A} e.
Arguments Panic {A}.

Definition bind {A B} (r : result A) (k : A -> result B) : result B :=
  match r with
  | Ok a => k a
  | Err e => Err e
  | Panic => Panic
  end.

Declare Scope result_scope.
Delimit Scope result_scope with result.
Notation "x <-! r ; k" := (bind r (fun x => k))
  (at level 100, r at next level, right associativity,
   format "'[' x  <-!  r ;  '/' k ']'") : result_scope.
Notation "' ( x , y ) <-! r ; k" := (bind r (fun '(x, y) => k))
  (at level 100, r at next level, right associativity) : result_scope.
Local Open Scope result_scope.

Definition is_Ok {A} (r : result A) : Prop := exists a, r = Ok a.
Definition is_Err {A} (r : result A) : Prop := exists e, r = Err e.

(** ** Slices *)

(** [s[lo:]]: panics when [lo] is beyond the length. *)
Definition slice_from {A} (s : list A) (lo : nat) : result (list A) :=
  if lo <=? length s then Ok (drop lo s) else Panic.

(** A slice with its capacity: its elements, and after them what its
    backing array holds up to the capacity of the slice. *)
Record slice (A : Type) : Type := {
  elems : list A;
  spare : list A
}.
Arguments elems {A} _.
Arguments spare {A} _.

(** [s[lo:hi]]: Go checks [lo <= hi <= cap(s)], against the capacity and
    not the length, and panics otherwise; from the length on, the result
    holds what the backing array holds there. *)
Definition slice_range {A} (s : slice A) (lo hi : nat) : result (slice A) :=
  let backing := elems s ++ spare s in
  if (lo <=? hi) && (hi <=? length backing)
  then Ok {| elems := take (hi - lo) (drop lo backing);
             spare := drop hi backing |}
  else Panic.

(** [s[lo:hi]] for the offsets [lo <= hi <= len(s)] of a submatch in [s]:
    within the length Go's check of the bounds passes whatever the
    capacity, and the result holds these elements of [s]. *)
Definition submatch_bytes {A} (s : list A) (lo hi : nat) : list A :=
  take (hi - lo) (drop lo s).

(** [s[i]]: panics when [i] is out of range. *)
Definition index {A} (s : list A) (i : nat) : result A :=
  match s !! i with
  | Some x => Ok x
  | None => Panic
  end.

(** ** Package [unicode/utf8]: [DecodeRune] *)

Module utf8.

Definition RuneError : N := 0xFFFD.

Definition maskx : N := 0x3F.
Definition mask2 : N := 0x1F.
Definition mask3 : N := 0x0F.
Definition mask4 : N := 0x07.

Definition locb : N := 0x80.
Definition hicb : N := 0xBF.

Definition xx : N := 0xF1.
Definition as_ : N := 0xF0.
Definition s1 : N := 0x02.
Definition s2 : N := 0x13.
Definition s3 : N := 0x03.
Definition s4 : N := 0x23.
Definition s5 : N := 0x34.
Definition s6 : N := 0x04.
Definition s7 : N := 0x44.

(** The table [first]: information about the first byte of an encoding. *)
Definition first (b : N) : N :=
  if (b <? 0x80)%N then as_
  else if (b <? 0xC2)%N then xx
  else if (b <? 0xE0)%N then s1
  else if (b =? 0xE0)%N then s2
  else if (b <? 0xED)%N then s3
  else if (b =? 0xED)%N then s4
  else if (b <? 0xF0)%N then s3
  else if (b =? 0xF0)%N then s5
  else if (b <? 0xF4)%N then s6
  else if (b =? 0xF4)%N then s7
  else xx.

Record acceptRange : Type := { lo : N; hi : N }.

(** The table [acceptRanges] (sixteen entries, the last eleven zero). *)
Definition acceptRanges (i : N) : acceptRange :=
  match i with
  | 0%N => {| lo := locb; hi := hicb |}
  | 1%N => {| lo := 0xA0; hi := hicb |}
  | 2%N => {| lo := locb; hi := 0x9F |}
  | 3%N => {| lo := 0x90; hi := hicb |}
  | 4%N => {| lo := locb; hi := 0x8F |}
  | _ => {| lo := 0; hi := 0 |}
  end.

(** [p[i]] at a position that the length test before it has put in range. *)
Definition at_ (p : list byte) (i : nat) : N := Byte.to_N (nth i p x00).

(** [DecodeRune(p)]: the first rune of [p] and its width in bytes;
    [(RuneError, 0)] on empty input and [(RuneError, 1)] on an invalid
    encoding. The mask trick of the ASCII / invalid-first-byte branch
    ([mask := rune(x) << 31 >> 31]) selects on bit 0 of [x]. *)
Definition DecodeRune (p : list byte) : N * nat :=
  let n := length p in
  if n <? 1 then (RuneError, 0) else
  let p0 := at_ p 0 in
  let x := first p0 in
  if (as_ <=? x)%N then
    ((if N.testbit x 0 then RuneError else p0), 1)
  else
  let sz := N.to_nat (N.land x 7) in
  let accept := acceptRanges (N.shiftr x 4) in
  if n <? sz then (RuneError, 1) else
  let b1 := at_ p 1 in
  if ((b1 <? lo accept) || (hi accept <? b1))%N then (RuneError, 1) else
  if sz <=? 2 then
    (N.lor (N.shiftl (N.land p0 mask2) 6) (N.land b1 maskx), 2)
  else
  let b2 := at_ p 2 in
  if ((b2 <? locb) || (hicb <? b2))%N then (RuneError, 1) else
  if sz <=? 3 then
    (N.lor (N.lor (N.shiftl (N.land p0 mask3) 12)
                  (N.shiftl (N.land b1 maskx) 6))
           (N.land b2 maskx), 3)
  else
  let b3 := at_ p 3 in
  if ((b3 <? locb) || (hicb <? b3))%N then (RuneError, 1) else
  (N.lor (N.lor (N.lor (N.shiftl (N.land p0 mask4) 18)
                       (N.shiftl (N.land b1 maskx) 12))
                (N.shiftl (N.land b2 maskx) 6))
         (N.land b3 maskx), 4).

End utf8.

(** ** Package constants and the two helper patterns *)

(** [string(unicode.ReplacementChar)]: the UTF-8 encoding of U+FFFD. *)
Definition UnnamedCapture : string := string_of_list_byte [xef; xbf; xbd].

Definition errTrailingBackslash : error :=
  errors_New "error parsing named regexp: trailing backslash at end of expression".
Definition errIncorrectRune : error :=
  errors_New "error parsing named regexp: incorrect rune after backslash".
Definition errDuplicateNamedGroup : error :=
  errors_New "error parsing named regexp: duplicate named group".

(** Rune literals used by the scanner. *)
Definition rune_backslash : N := 92.
Definition rune_lparen : N := 40.
Definition rune_gt : N := 62.
Definition rune_newline : N := 10.

Fixpoint has_prefix (pre s : list byte) : bool :=
  match pre, s with
  | [], _ => true
  | a :: pre', b :: s' => Byte.eqb a b && has_prefix pre' s'
  | _ :: _, [] => false
  end.

(** The lazy loop of [(.*?)\>] in [reNamedMatch]: starting at byte offset
    [pos] (where [rest] begins), step over runes other than newline until
    the first [>]; the offset of that [>] is returned. The engine reads the
    input rune by rune with [utf8.DecodeRune], and [.] matches every rune
    but newline (also the [RuneError] of an invalid byte). *)
Fixpoint lazy_dot_until_gt (fuel : nat) (rest : list byte) (pos : nat)
  : option nat :=
  match fuel with
  | 0 => None
  | S fuel' =>
    if length rest =? 0 then None else
    let '(r, w) := utf8.DecodeRune rest in
    if (r =? rune_gt)%N then Some pos
    else if (r =? rune_newline)%N then None
    else lazy_dot_until_gt fuel' (drop w rest) (pos + w)
  end.

(** [reNamedMatch.FindSubmatchIndex(input)] for
    [reNamedMatch = regexp.MustCompile(`^\?P\<(.*?)\>`)]:
    [nil] or the four offsets [m[0], m[1], m[2], m[3]]. *)
Definition reNamedMatch_FindSubmatchIndex (input : list byte)
  : option (list nat) :=
  if has_prefix (list_byte_of_string "?P<") input then
    match lazy_dot_until_gt (length input) (drop 3 input) 3 with
    | Some e => Some [0; e + 1; 3; e]
    | None => None
    end
  else None.

(** [reNoCaptureMatch.FindSubmatchIndex(input)] for
    [reNoCaptureMatch = regexp.MustCompile(`^\?:`)]. *)
Definition reNoCaptureMatch_FindSubmatchIndex (input : list byte)
  : option (list nat) :=
  if has_prefix (list_byte_of_string "?:") input then Some [0; 2] else None.

(** [m[i]] on a match of the helper patterns (always in range). *)
Definition off (m : list nat) (i : nat) : nat := nth i m 0.

(** ** The scanner [parseBytes] *)

(** The body of [parseBytes]; its recursive calls go through the first
    argument. *)
Definition parseBytes_body (parseBytes : list byte -> result (list string))
    (input : list byte) : result (list string) :=
  if length input =? 0 then Ok [] else
  let '(nextrun, runlen) := utf8.DecodeRune input in
  (* Advance input to next rune *)
  input <-! slice_from input runlen;
  if (nextrun =? rune_backslash)%N then
    (* Escape character, skip next rune *)
    if length input =? 0 then Err errTrailingBackslash else
    let '(nextrun, runlen) := utf8.DecodeRune input in
    if negb (nextrun =? utf8.RuneError)%N then
      input <-! slice_from input runlen;
      parseBytes input
    else Err errIncorrectRune
  else if (nextrun =? rune_lparen)%N then
    '(groupName, input) <-!
      match reNamedMatch_FindSubmatchIndex input with
      | Some m =>
        (* Named pattern ?P<name>: the offsets of the match lie within
           input (lemma reNamedMatch_inv) *)
        let name := submatch_bytes input (off m 2) (off m 3) in
        input <-! slice_from input (off m 3 + 1);
        Ok ([string_of_list_byte name], input)
      | None =>
        match reNoCaptureMatch_FindSubmatchIndex input with
        | Some m =>
          (* no capturing group *)
          input <-! slice_from input (off m 1 + 1);
          Ok ([], input)
        | None =>
          (* capture with no name *)
          Ok ([UnnamedCapture], input)
        end
      end;
    recursiveResult <-! parseBytes input;
    Ok (groupName ++ recursiveResult)
  else parseBytes input.

(** [parseBytes] recurses on a strictly shorter slice of its input; [fuel]
    bounds the depth of the recursion and [length input] is always enough
    (lemmas [parseBytes_fuel_enough] and [parseBytes_unfold]). *)
Fixpoint parseBytes_fuel (fuel : nat) (input : list byte)
  : result (list string) :=
  match fuel with
  | 0 => Ok []
  | S fuel' => parseBytes_body (parseBytes_fuel fuel') input
  end.

Definition parseBytes (input : list byte) : result (list string) :=
  parseBytes_fuel (length input) input.

(** ** The table builder [buildMap] *)

(** The [for i, name := range namedMatches] loop, with the table [r] built
    so far. *)
Fixpoint buildMap_loop (i : nat) (namedMatches : list string)
    (r : gmap string nat) : result (gmap string nat) :=
  match namedMatches with
  | [] => Ok r
  | name :: rest =>
    if bool_decide (name ≠ UnnamedCapture) then
      match r !! name with
      | Some _ => Err errDuplicateNamedGroup
      | None => buildMap_loop (S i) rest (<[name := i + 1]> r)
      end
    else buildMap_loop (S i) rest r
  end.

Definition buildMap (namedMatches : list string) : result (gmap string nat) :=
  buildMap_loop 0 namedMatches ∅.

(** The scanner followed by the builder, as [Compile] chains them. *)
Definition scan_and_build (re : string) : result (gmap string nat) :=
  parsed <-! parseBytes (list_byte_of_string re);
  buildMap parsed.

(** ** The external engine: package [regexp] *)

(** What the package uses of Go's [regexp]: compilation, and the eight
    submatch searches. A search that finds nothing returns [nil]
    ([None]; for the [FindAll] searches the [nil] slice is the empty
    list, which [range] cannot tell apart). A byte-slice submatch is
    itself [nil] when its group took no part in the match. A slice of
    offsets comes with its capacity, which the engine sets: the package
    re-slices it. *)
Class Engine : Type := {
  Regexp : Type;
  regexp_Compile : string -> Regexp + error;
  FindSubmatch : Regexp -> list byte -> option (list (option (list byte)));
  FindSubmatchIndex : Regexp -> list byte -> option (slice Z);
  FindStringSubmatch : Regexp -> string -> option (list string);
  FindStringSubmatchIndex : Regexp -> string -> option (slice Z);
  FindAllSubmatch :
    Regexp -> list byte -> Z -> list (option (list (option (list byte))));
  FindAllSubmatchIndex : Regexp -> list byte -> Z -> list (option (slice Z));
  FindAllStringSubmatch : Regexp -> string -> Z -> list (option (list string));
  FindAllStringSubmatchIndex :
    Regexp -> string -> Z -> list (option (slice Z))
}.

(** ** [RegexpNamed] and [Compile] *)

Record RegexpNamed (R : Type) : Type := {
  namedMap : gmap string nat;
  matcher : R
}.
Arguments namedMap {R} _.
Arguments matcher {R} _.

Section Construction.
Context `{Engine}.

Definition Compile (re : string) : result (RegexpNamed Regexp) :=
  match regexp_Compile re with
  | inr err => Err err
  | inl compiledRe =>
    parsed <-! parseBytes (list_byte_of_string re);
    map_ <-! buildMap parsed;
    Ok {| namedMap := map_; matcher := compiledRe |}
  end.

End Construction.

(** ** The projection layer *)

(** [match[pos]], which reads the raw match within its length. *)
Definition getResult {T} (match_ : list T) (pos : nat) : result T :=
  index match_ pos.

(** [match[pos*2 : pos*2+2]], which re-slices the raw match within its
    capacity; the slice returned is given by its elements. *)
Definition getResultIndex {T} (match_ : slice T) (pos : nat)
  : result (option (list T)) :=
  s <-! slice_range match_ (pos * 2) (pos * 2 + 2);
  Ok (Some (elems s)).

(** In [mapRe] and [mapReAll] the type [M] is the model of the type [[]T] of
    a raw match: [list T] where [resultFunc] is [getResult], [slice T] where
    it is [getResultIndex]. *)

(** One iteration of [for k, v := range re.namedMap { rv[k] = resultFunc(submatches, v) }]. *)
Definition mapRe_step {M S} (submatches : M)
    (resultFunc : M -> nat -> result S)
    (k : string) (v : nat) (acc : result (gmap string S))
  : result (gmap string S) :=
  rv <-! acc;
  x <-! resultFunc submatches v;
  Ok (<[k := x]> rv).

(** [mapRe]; [zero] is [*new(S)], and the returned map is [nil] ([None])
    exactly in the no-match branch. *)
Definition mapRe {R M S} (zero : S) (re : RegexpNamed R)
    (submatches : option M)
    (resultFunc : M -> nat -> result S)
  : result (S * option (gmap string S)) :=
  match submatches with
  | None => Ok (zero, None)
  | Some submatches =>
    rv <-! map_fold (mapRe_step submatches resultFunc) (Ok ∅) (namedMap re);
    base <-! resultFunc submatches 0;
    Ok (base, Some rv)
  end.

(** The loop of [mapReAll], with the two slices built so far. *)
Fixpoint mapReAll_loop {R M S} (zero : S) (re : RegexpNamed R)
    (matches : list (option M))
    (composeFunc : M -> nat -> result S)
    (rv0 : list S) (rv : list (option (gmap string S)))
  : result (list S * list (option (gmap string S))) :=
  match matches with
  | [] => Ok (rv0, rv)
  | submatches :: rest =>
    '(base, namedSubmatches) <-! mapRe zero re submatches composeFunc;
    mapReAll_loop zero re rest composeFunc
      (rv0 ++ [base]) (rv ++ [namedSubmatches])
  end.

Definition mapReAll {R M S} (zero : S) (re : RegexpNamed R)
    (matches : list (option M))
    (composeFunc : M -> nat -> result S)
  : result (list S * list (option (gmap string S))) :=
  mapReAll_loop zero re matches composeFunc [] [].

Section Methods.
Context `{Engine}.
Implicit Type re : RegexpNamed Regexp.

Definition FindNamed re (s : list byte) :=
  mapRe None re (FindSubmatch (matcher re) s) getResult.

Definition FindIndexNamed re (s : list byte) :=
  mapRe None re (FindSubmatchIndex (matcher re) s) getResultIndex.

Definition FindStringNamed re (s : string) :=
  mapRe EmptyString re (FindStringSubmatch (matcher re) s) getResult.

Definition FindStringIndexNamed re (s : string) :=
  mapRe None re (FindStringSubmatchIndex (matcher re) s) getResultIndex.

Definition FindAllNamed re (b : list byte) (n : Z) :=
  mapReAll None re (FindAllSubmatch (matcher re) b n) getResult.

Definition FindAllIndexNamed re (b : list byte) (n : Z) :=
  mapReAll None re (FindAllSubmatchIndex (matcher re) b n) getResultIndex.

Definition FindAllStringNamed re (s : string) (n : Z) :=
  mapReAll EmptyString re (FindAllStringSubmatch (matcher re) s n) getResult.

Definition FindAllStringIndexNamed re (s : string) (n : Z) :=
  mapReAll None re (FindAllStringSubmatchIndex (matcher re) s n)
    getResultIndex.
End Methods.

(** The value that [resultFunc] yields for a table index, if any. *)
Definition projected {M S} (submatches : M)
    (resultFunc : M -> nat -> result S) (v : nat) : option S :=
  match resultFunc submatches v with
  | Ok x => Some x
  | _ => None
  end.

(** ** A test double for the engine *)

(** A test double for the engine: it answers, on the patterns and subjects
    of the package's own tests and on [pat_escaped_paren] with the subject
    [(a], what Go's [regexp] answers there (a compiled pattern is
    represented by its source text; a slice of offsets is given no spare
    capacity), and reports no match anywhere else. It serves to run the
    properties below on concrete inputs. *)
Definition pat_name_age : string := "(?P<name>\w+) (?P<age>\d+)".
Definition pat_optional_name_age : string := "(?P<name>\w+)? (?P<age>\d+)".
Definition pat_unbalanced : string := "(?P<name>\w+) (?P<age>\d+".
Definition pat_duplicate : string := "(?P<name>\w+) (?P<name>\d+)".
Definition pat_trailing_backslash : string := "(?P<name>\w+)\".
Definition pat_escaped_paren : string := "(?:\()(?P<x>a)".
Definition pat_quoted_marker : string := "\Q(?:\".

(** A slice whose capacity is its length. *)
Definition full {A} (l : list A) : slice A := {| elems := l; spare := [] |}.

Definition test_engine : Engine := {|
  Regexp := string;
  regexp_Compile re :=
    if bool_decide (re = pat_unbalanced)
    then inr (syntax_Error "missing closing )" re)
    else if bool_decide (re = pat_trailing_backslash)
    then inr (syntax_Error "trailing backslash at end of expression"
           EmptyString)
    else inl re;
  FindSubmatch c s :=
    if bool_decide (c = pat_name_age /\ string_of_list_byte s = "foo 42"%string)
    then Some [Some (list_byte_of_string "foo 42");
               Some (list_byte_of_string "foo");
               Some (list_byte_of_string "42")]
    else if bool_decide (c = pat_escaped_paren
                         /\ string_of_list_byte s = "(a"%string)
    then Some [Some (list_byte_of_string "(a");
               Some (list_byte_of_string "a")]
    else None;
  FindSubmatchIndex c s :=
    if bool_decide (c = pat_name_age /\ string_of_list_byte s = "foo 42"%string)
    then Some (full [0; 6; 0; 3; 4; 6]%Z)
    else if bool_decide (c = pat_escaped_paren
                         /\ string_of_list_byte s = "(a"%string)
    then Some (full [0; 2; 1; 2]%Z)
    else None;
  FindStringSubmatch c s :=
    if bool_decide (c = pat_name_age /\ s = "foo 42"%string)
    then Some ["foo 42"; "foo"; "42"]%string
    else if bool_decide (c = pat_escaped_paren /\ s = "(a"%string)
    then Some ["(a"; "a"]%string
    else None;
  FindStringSubmatchIndex c s :=
    if bool_decide (c = pat_name_age /\ s = "foo 42"%string)
    then Some (full [0; 6; 0; 3; 4; 6]%Z)
    else if bool_decide (c = pat_escaped_paren /\ s = "(a"%string)
    then Some (full [0; 2; 1; 2]%Z)
    else None;
  FindAllSubmatch c s n :=
    if bool_decide (c = pat_escaped_paren
                    /\ string_of_list_byte s = "(a"%string /\ (n < 0)%Z)
    then [Some [Some (list_byte_of_string "(a");
                Some (list_byte_of_string "a")]]
    else [];
  FindAllSubmatchIndex c s n :=
    if bool_decide (c = pat_escaped_paren
                    /\ string_of_list_byte s = "(a"%string /\ (n < 0)%Z)
    then [Some (full [0; 2; 1; 2]%Z)]
    else [];
  FindAllStringSubmatch c s n :=
    if bool_decide (c = pat_optional_name_age /\ s = "foo 42 43"%string
                    /\ (n < 0)%Z)
    then [Some ["foo 42"; "foo"; "42"]%string; Some [" 43"; EmptyString; "43"]%string]
    else if bool_decide (c = pat_escaped_paren /\ s = "(a"%string
                         /\ (n < 0)%Z)
    then [Some ["(a"; "a"]%string]
    else [];
  FindAllStringSubmatchIndex c s n :=
    if bool_decide (c = pat_optional_name_age /\ s = "foo 42 43"%string
                    /\ (n < 0)%Z)
    then [Some (full [0; 6; 0; 3; 4; 6]%Z); Some (full [6; 9; -1; -1; 7; 9]%Z)]
    else if bool_decide (c = pat_escaped_paren /\ s = "(a"%string
                         /\ (n < 0)%Z)
    then [Some (full [0; 2; 1; 2]%Z)]
    else []
|}.

(** ** Counting bytes (used to state properties of the scanner) *)

(** The number of occurrences of the byte [c] in [l]. *)
Fixpoint count_byte (c : byte) (l : list byte) : nat :=
  match l with
  | [] => 0
  | b :: l' => (if Byte.eqb b c then 1 else 0) + count_byte c l'
  end.

(** Whether [l] is empty or starts with an ASCII byte. *)
Definition starts_ascii_or_empty (l : list byte) : bool :=
  match l with
  | [] => true
  | c :: _ => (Byte.to_N c <? 0x80)%N
  end.

(** Adding [n] to every index of a table that [buildMap] returns. *)
Definition shift_result (n : nat) (r : result (gmap string nat))
  : result (gmap string nat) :=
  match r with
  | Ok tbl => Ok ((fun i => n + i) <$> tbl)
  | Err e => Err e
  | Panic => Panic
  end.

(** ** The earlier package [regex_named] *)

(** The earlier revisions of the package, under the name [regex_named]:
    the scanner with its [until] argument, the table builder without the
    duplicate check, [Compile] over them, and the first [FindStringNamed],
    which looks one name up. *)
Module regex_named.

Definition errorString : string := string_of_list_byte [xef; xbf; xbd].

Definition errTrailing : error := errors_New "malformed - trailing \".
Definition errIncorrectRune : error := errors_New "incorrect rune".

Definition rune_rparen : N := 41.

(** The body of [parseBytes(in, until)]; its recursive calls go through the
    first argument. *)
Definition parseBytes_body
    (parseBytes : list byte -> N -> result (list string))
    (in_ : list byte) (until : N) : result (list string) :=
  if length in_ =? 0 then Ok [] else
  let '(nextrun, runlen) := utf8.DecodeRune in_ in
  in_ <-! slice_from in_ runlen;
  if (nextrun =? until)%N then parseBytes in_ 0%N else
  if (nextrun =? rune_backslash)%N then
    if length in_ =? 0 then Err errTrailing else
    let '(nextrun, runlen) := utf8.DecodeRune in_ in
    if negb (nextrun =? utf8.RuneError)%N then
      in_ <-! slice_from in_ runlen;
      parseBytes in_ 0%N
    else Err errIncorrectRune
  else if (nextrun =? rune_lparen)%N then
    let untilRecursive := rune_rparen in
    '(prependReturn, in_) <-!
      match reNamedMatch_FindSubmatchIndex in_ with
      | Some m =>
        let name := submatch_bytes in_ (off m 2) (off m 3) in
        in_ <-! slice_from in_ (off m 3 + 1);
        Ok ([string_of_list_byte name], in_)
      | None =>
        match reNoCaptureMatch_FindSubmatchIndex in_ with
        | Some m =>
          in_ <-! slice_from in_ (off m 1 + 1);
          Ok ([], in_)
        | None => Ok ([errorString], in_)
        end
      end;
    rec <-! parseBytes in_ untilRecursive;
    Ok (prependReturn ++ rec)
  else parseBytes in_ 0%N.

Fixpoint parseBytes_fuel (fuel : nat) (in_ : list byte) (until : N)
  : result (list string) :=
  match fuel with
  | 0 => Ok []
  | S fuel' => parseBytes_body (parseBytes_fuel fuel') in_ until
  end.

Definition parseBytes (in_ : list byte) (until : N) : result (list string) :=
  parseBytes_fuel (length in_) in_ until.

Definition parse (in_ : string) : result (list string) :=
  parseBytes (list_byte_of_string in_) 0%N.

(** The loop of the earlier [buildMap]: a later entry of the same name
    overwrites the earlier one. *)
Fixpoint buildMap_loop (i : nat) (namedMatches : list string)
    (r : gmap string nat) : gmap string nat :=
  match namedMatches with
  | [] => r
  | name :: rest =>
    if bool_decide (name ≠ errorString)
    then buildMap_loop (S i) rest (<[name := i + 1]> r)
    else buildMap_loop (S i) rest r
  end.

Definition buildMap (namedMatches : list string) : gmap string nat :=
  buildMap_loop 0 namedMatches ∅.

Section Construction.
Context `{Engine}.

Definition Compile (re : string) : result (RegexpNamed Regexp) :=
  match regexp_Compile re with
  | inr err => Err err
  | inl compiledRe =>
    parsed <-! parse re;
    Ok {| namedMap := buildMap parsed; matcher := compiledRe |}
  end.

(** The first [FindStringNamed(s, name)]: the empty string for a name that
    is not in the table; otherwise element [idx] of the engine's submatch
    slice, which is [nil] when there is no match. *)
Definition FindStringNamed (re : RegexpNamed Regexp) (s name : string)
  : result string :=
  match namedMap re !! name with
  | None => Ok EmptyString
  | Some idx =>
    let match_ := default [] (FindStringSubmatch (matcher re) s) in
    index match_ idx
  end.
End Construction.

End regex_named.

#[local] Instance error_eq_dec : EqDecision error.
Proof. solve_decision. Defined.

(** The error of the earlier scanner for each error of the current one. *)
Definition earlier_error (e : error) : error :=
  if bool_decide (e = errTrailingBackslash) then regex_named.errTrailing
  else if bool_decide (e = errIncorrectRune)
  then regex_named.errIncorrectRune
  else e.

Definition with_earlier_errors {A} (r : result A) : result A :=
  match r with
  | Ok a => Ok a
  | Err e => Err (earlier_error e)
  | Panic => Panic
  end.

(** What the repeated-result operations return, [out], for the raw matches
    [raw] of the engine: when they return, two sequences of the length of
    [raw] that hold, at each position, the base and the mapping of the
    single-result projection of the raw match there; and they return
    exactly when that projection returns on every raw match. *)
Definition pointwise_projection {R M S} (zero : S) (re : RegexpNamed R)
    (raw : list (option M)) (f : M -> nat -> result S)
    (out : result (list S * list (option (gmap string S)))) : Prop :=
  (forall bases maps, out = Ok (bases, maps) ->
     length bases = length raw /\ length maps = length raw /\
     forall j m, raw !! j = Some m ->
       exists base mp, bases !! j = Some base /\ maps !! j = Some mp /\
         mapRe zero re m f = Ok (base, mp)) /\
  (is_Ok out <-> Forall (fun m => is_Ok (mapRe zero re m f)) raw).

(** * Properties *)

(** ** [utf8.DecodeRune] *)

Module utf8_facts.
Import utf8.

Lemma first_cases b :
  first b = as_ \/ first b = xx \/ first b = s1 \/ first b = s2 \/
  first b = s3 \/ first b = s4 \/ first b = s5 \/ first b = s6 \/
  first b = s7.
Proof. unfold first. repeat case_match; tauto. Qed.

(** Evaluate the parts of [DecodeRune] that depend only on the entry [x]
    of [first]. *)
Ltac eval_first_entry :=
  repeat match goal with
  | |- context [(as_ <=? ?x)%N] =>
    let v := eval vm_compute in (as_ <=? x)%N in
    change (as_ <=? x)%N with v
  | |- context [N.testbit ?x 0] =>
    let v := eval vm_compute in (N.testbit x 0) in
    change (N.testbit x 0) with v
  | |- context [N.to_nat (N.land ?x 7)] =>
    let v := eval vm_compute in (N.to_nat (N.land x 7)) in
    change (N.to_nat (N.land x 7)) with v
  | |- context [acceptRanges (N.shiftr ?x 4)] =>
    let v := eval vm_compute in (acceptRanges (N.shiftr x 4)) in
    change (acceptRanges (N.shiftr x 4)) with v
  end.

Ltac first_split p0 :=
  destruct (first_cases p0) as
    [Hx|[Hx|[Hx|[Hx|[Hx|[Hx|[Hx|[Hx|Hx]]]]]]]]; rewrite Hx; clear Hx;
  eval_first_entry; cbn [lo hi].

(** On non-empty input the width is between 1 and the length. *)
Lemma DecodeRune_width p :
  p <> [] -> 1 <= snd (DecodeRune p) <= length p.
Proof.
  destruct p as [|c0 t]; [congruence|intros _].
  unfold DecodeRune.
  first_split (at_ (c0 :: t) 0);
    destruct t as [|c1 [|c2 [|c3 t]]]; cbn;
    repeat case_match; cbn; lia.
Qed.

(** A backslash appended to non-empty input changes neither the first
    rune nor its width: a backslash is no continuation byte. *)
Lemma DecodeRune_app_backslash p :
  p <> [] -> DecodeRune (p ++ [x5c]) = DecodeRune p.
Proof.
  destruct p as [|c0 t]; [congruence|intros _].
  unfold DecodeRune. rewrite <- app_comm_cons.
  change (at_ (c0 :: t ++ [x5c]) 0) with (at_ (c0 :: t) 0).
  first_split (at_ (c0 :: t) 0);
    destruct t as [|c1 [|c2 [|c3 t]]];
    unfold at_; cbn [nth app length Nat.ltb Nat.leb];
    change (Byte.to_N x5c) with 92%N;
    change (92 <? 128)%N with true;
    change (92 <? 144)%N with true;
    change (92 <? 160)%N with true;
    cbn [orb];
    repeat case_match; try reflexivity; try discriminate.
Qed.

(** An ASCII byte decodes to itself, with width 1. *)
Lemma DecodeRune_ascii c t :
  (Byte.to_N c < 0x80)%N -> DecodeRune (c :: t) = (Byte.to_N c, 1).
Proof.
  intros Hc. unfold DecodeRune. cbn [length Nat.ltb Nat.leb].
  change (at_ (c :: t) 0) with (Byte.to_N c).
  unfold first. apply N.ltb_lt in Hc. rewrite Hc. reflexivity.
Qed.
End utf8_facts.

(** ** Slices *)

Lemma slice_from_Ok {A} (s : list A) lo :
  lo <= length s -> slice_from s lo = Ok (drop lo s).
Proof.
  intros Hle. unfold slice_from.
  destruct (Nat.leb_spec lo (length s)); [reflexivity|lia].
Qed.

Lemma slice_from_inv {A} (s s' : list A) lo :
  slice_from s lo = Ok s' -> lo <= length s /\ s' = drop lo s.
Proof.
  unfold slice_from.
  destruct (Nat.leb_spec lo (length s)); [|discriminate].
  intros [= <-]. auto.
Qed.

Lemma slice_from_not_Err {A} (s : list A) lo e : slice_from s lo <> Err e.
Proof. unfold slice_from. case_match; discriminate. Qed.

(** ** The helper patterns *)

Lemma lazy_dot_until_gt_fuel n m rest pos :
  length rest <= n -> length rest <= m ->
  lazy_dot_until_gt n rest pos = lazy_dot_until_gt m rest pos.
Proof.
  revert m rest pos.
  induction n as [|n IH]; intros [|m] rest pos Hn Hm; cbn [lazy_dot_until_gt];
    try reflexivity.
  - destruct rest; [reflexivity|cbn in Hn; lia].
  - destruct rest; [reflexivity|cbn in Hm; lia].
  - destruct (Nat.eqb_spec (length rest) 0) as [|Hlen]; [reflexivity|].
    assert (Hne : rest <> []) by (intros ->; cbn in Hlen; lia).
    pose proof (utf8_facts.DecodeRune_width rest Hne) as Hw.
    destruct (utf8.DecodeRune rest) as [r w]; cbn [snd] in Hw.
    repeat case_match; try reflexivity.
    apply IH; rewrite length_drop; lia.
  Qed.

Lemma lazy_dot_until_gt_bound n rest pos e :
  lazy_dot_until_gt n rest pos = Some e -> pos <= e < pos + length rest.
Proof.
  revert rest pos.
  induction n as [|n IH]; intros rest pos; cbn [lazy_dot_until_gt];
    [discriminate|].
  destruct (Nat.eqb_spec (length rest) 0) as [|Hlen]; [discriminate|].
  assert (Hne : rest <> []) by (intros ->; cbn in Hlen; lia).
  pose proof (utf8_facts.DecodeRune_width rest Hne) as Hw.
  destruct (utf8.DecodeRune rest) as [r w]; cbn [snd] in Hw.
  repeat case_match; try discriminate.
  - intros [= <-]. lia.
  - intros He. apply IH in He. rewrite length_drop in He. lia.
Qed.

(** ** [parseBytes]: the fuel is enough *)

(** The body only calls its recursion argument on strictly shorter input. *)
Lemma parseBytes_body_ext f g input :
  (forall i, length i < length input -> f i = g i) ->
  parseBytes_body f input = parseBytes_body g input.
Proof.
  intros Hfg. unfold parseBytes_body.
  destruct (Nat.eqb_spec (length input) 0) as [|Hlen]; [reflexivity|].
  assert (Hne : input <> []) by (intros ->; cbn in Hlen; lia).
  pose proof (utf8_facts.DecodeRune_width input Hne) as Hw.
  destruct (utf8.DecodeRune input) as [nextrun runlen]; cbn [snd] in Hw.
  rewrite slice_from_Ok by lia. cbn [bind].
  assert (Hshort : forall k, length (drop k (drop runlen input)) < length input)
    by (intros k; rewrite !length_drop; lia).
  assert (Hshort0 : length (drop runlen input) < length input)
    by (rewrite length_drop; lia).
  set (input1 := drop runlen input) in *.
  destruct (nextrun =? rune_backslash)%N.
  { destruct (length input1 =? 0); [reflexivity|].
    destruct (utf8.DecodeRune input1) as [r2 w2].
    destruct (negb _); [|reflexivity].
    unfold slice_from. case_match; [|reflexivity]. cbn [bind]. auto. }
  destruct (nextrun =? rune_lparen)%N; [|auto].
  destruct (reNamedMatch_FindSubmatchIndex input1) as [m|].
  { unfold slice_from. case_match; [|reflexivity]. cbn [bind].
    rewrite Hfg by auto. reflexivity. }
  destruct (reNoCaptureMatch_FindSubmatchIndex input1) as [m|].
  { unfold slice_from. case_match; [|reflexivity]. cbn [bind].
    rewrite Hfg by auto. reflexivity. }
  cbn [bind]. rewrite Hfg by auto. reflexivity.
Qed.

Lemma parseBytes_fuel_indep n m input :
  length input <= n -> length input <= m ->
  parseBytes_fuel n input = parseBytes_fuel m input.
Proof.
  revert m input.
  induction n as [|n IH]; intros [|m] input Hn Hm; cbn [parseBytes_fuel];
    try reflexivity.
  - destruct input; [reflexivity|cbn in Hn; lia].
  - destruct input; [reflexivity|cbn in Hm; lia].
  - apply parseBytes_body_ext. intros i Hi. apply IH; lia.
Qed.

Lemma parseBytes_fuel_enough n input :
  length input <= n -> parseBytes_fuel n input = parseBytes input.
Proof. intros Hn. apply parseBytes_fuel_indep; lia. Qed.

(** The two examples of the documentation of [parseBytes]. *)
Example parseBytes_doc_example_1 :
  parseBytes (list_byte_of_string "(?P<name>\w+) (?P<age>\d+)")
  = Ok ["name"; "age"]%string.
Proof. vm_compute. reflexivity. Qed.

Example parseBytes_doc_example_2 :
  parseBytes (list_byte_of_string "(?P<name>\w+) (?:\w+) (\d+)")
  = Ok ["name"%string; UnnamedCapture].
Proof. vm_compute. reflexivity. Qed.

(** [parseBytes] satisfies the recursive equation of the Go function. *)
Lemma parseBytes_unfold input :
  parseBytes input = parseBytes_body parseBytes input.
Proof.
  destruct input as [|c t]; [reflexivity|].
  unfold parseBytes at 1. cbn [length parseBytes_fuel].
  apply parseBytes_body_ext. intros i Hi. cbn [length] in Hi.
  apply parseBytes_fuel_enough. lia.
Qed.

(** ** A backslash appended to the pattern *)

Lemma has_prefix_app_backslash_named s :
  has_prefix (list_byte_of_string "?P<") (s ++ [x5c])
  = has_prefix (list_byte_of_string "?P<") s.
Proof.
  destruct s as [|a [|b [|c s]]]; cbn; try reflexivity;
    repeat (case_match; cbn; try reflexivity).
Qed.

Lemma has_prefix_app_backslash_nocapture s :
  has_prefix (list_byte_of_string "?:") (s ++ [x5c])
  = has_prefix (list_byte_of_string "?:") s.
Proof.
  destruct s as [|a [|b s]]; cbn; try reflexivity;
    repeat (case_match; cbn; try reflexivity).
Qed.

Lemma has_prefix_length pre s :
  has_prefix pre s = true -> length pre <= length s.
Proof.
  revert s. induction pre as [|a pre IH]; intros [|b s]; cbn;
    try discriminate; try lia.
  intros [_ Hp]%andb_true_iff. apply IH in Hp. lia.
Qed.

Lemma lazy_dot_until_gt_app_backslash n m rest pos :
  length rest < n -> length rest <= m ->
  lazy_dot_until_gt n (rest ++ [x5c]) pos = lazy_dot_until_gt m rest pos.
Proof.
  revert m rest pos.
  induction n as [|n IH]; intros m rest pos Hn Hm; [lia|].
  destruct rest as [|c t].
  - destruct m, n; reflexivity.
  - destruct m as [|m]; [cbn in Hm; lia|].
    cbn [lazy_dot_until_gt].
    rewrite utf8_facts.DecodeRune_app_backslash by discriminate.
    pose proof (utf8_facts.DecodeRune_width (c :: t) ltac:(discriminate)) as Hw.
    destruct (utf8.DecodeRune (c :: t)) as [r w]; cbn [snd] in Hw.
    cbn [app length Nat.eqb].
    repeat case_match; try reflexivity.
    rewrite app_comm_cons, drop_app_le by lia.
    cbn [length] in *. apply IH; rewrite length_drop; cbn [length]; lia.
Qed.

Lemma reNamedMatch_app_backslash input :
  reNamedMatch_FindSubmatchIndex (input ++ [x5c])
  = reNamedMatch_FindSubmatchIndex input.
Proof.
  unfold reNamedMatch_FindSubmatchIndex.
  rewrite has_prefix_app_backslash_named.
  destruct (has_prefix _ input) eqn:Hp; [|reflexivity].
  apply has_prefix_length in Hp. cbn [list_byte_of_string length] in Hp.
  change (length (list_byte_of_string "?P<")) with 3 in Hp.
  rewrite drop_app_le by lia.
  rewrite (lazy_dot_until_gt_app_backslash _ (length input));
    [reflexivity| |]; rewrite ?length_app, ?length_drop; cbn [length]; lia.
Qed.

Lemma reNamedMatch_inv input m :
  reNamedMatch_FindSubmatchIndex input = Some m ->
  exists e, m = [0; e + 1; 3; e] /\ 3 <= e < length input.
Proof.
  unfold reNamedMatch_FindSubmatchIndex.
  destruct (has_prefix _ input) eqn:Hp; [|discriminate].
  apply has_prefix_length in Hp.
  change (length (list_byte_of_string "?P<")) with 3 in Hp.
  destruct (lazy_dot_until_gt _ _ _) as [e|] eqn:He; [|discriminate].
  intros [= <-]. exists e. split; [reflexivity|].
  apply lazy_dot_until_gt_bound in He. rewrite length_drop in He. lia.
Qed.

Lemma reNoCaptureMatch_inv input m :
  reNoCaptureMatch_FindSubmatchIndex input = Some m -> m = [0; 2].
Proof.
  unfold reNoCaptureMatch_FindSubmatchIndex. case_match; congruence.
Qed.

Lemma reNoCaptureMatch_app_backslash input :
  reNoCaptureMatch_FindSubmatchIndex (input ++ [x5c])
  = reNoCaptureMatch_FindSubmatchIndex input.
Proof.
  unfold reNoCaptureMatch_FindSubmatchIndex.
  now rewrite has_prefix_app_backslash_nocapture.
Qed.

Lemma length_eqb_0_false {A} (l : list A) :
  l <> [] -> (length l =? 0) = false.
Proof. destruct l; [congruence|reflexivity]. Qed.

Lemma app_backslash_nonempty (l : list byte) : l ++ [x5c] <> [].
Proof. destruct l; discriminate. Qed.

(** The scanner rejects [p ++ "\"] with the trailing-backslash error
    whenever it accepts [p]. *)
Lemma parseBytes_app_backslash p ds :
  parseBytes p = Ok ds ->
  parseBytes (p ++ [x5c]) = Err errTrailingBackslash.
Proof.
  remember (length p) as n eqn:Hn. revert p ds Hn.
  induction n as [n IH] using lt_wf_ind. intros p ds -> Hp.
  destruct p as [|c t]; [reflexivity|].
  rewrite parseBytes_unfold in Hp. rewrite parseBytes_unfold.
  unfold parseBytes_body in *.
  rewrite utf8_facts.DecodeRune_app_backslash by discriminate.
  pose proof (utf8_facts.DecodeRune_width (c :: t) ltac:(discriminate)) as Hw.
  destruct (utf8.DecodeRune (c :: t)) as [nextrun runlen]; cbn [snd] in Hw.
  rewrite (length_eqb_0_false _ (app_backslash_nonempty _)).
  rewrite length_eqb_0_false in Hp by discriminate.
  rewrite slice_from_Ok in Hp by lia.
  rewrite slice_from_Ok by (rewrite length_app; lia).
  rewrite drop_app_le by lia. cbn [bind] in *.
  assert (HIH : forall k ds', parseBytes (drop k (drop runlen (c :: t))) = Ok ds' ->
             parseBytes (drop k (drop runlen (c :: t)) ++ [x5c])
             = Err errTrailingBackslash).
  { intros k ds' Hk. eapply (IH _ _ _ _ eq_refl Hk). Unshelve.
    rewrite !length_drop. cbn [length] in *. lia. }
  set (input1 := drop runlen (c :: t)) in *. clearbody input1.
  clear IH Hw.
  destruct (nextrun =? rune_backslash)%N.
  { destruct (Nat.eqb_spec (length input1) 0) as [|Hlen]; [discriminate|].
    assert (Hne : input1 <> []) by (intros ->; cbn in Hlen; lia).
    rewrite (length_eqb_0_false _ (app_backslash_nonempty _)).
    rewrite utf8_facts.DecodeRune_app_backslash by assumption.
    pose proof (utf8_facts.DecodeRune_width input1 Hne) as Hw.
    destruct (utf8.DecodeRune input1) as [r2 w2]; cbn [snd] in Hw.
    destruct (negb _); [|discriminate].
    rewrite slice_from_Ok in Hp by lia.
    rewrite slice_from_Ok by (rewrite length_app; lia).
    rewrite drop_app_le by lia. cbn [bind] in *. eauto. }
  destruct (nextrun =? rune_lparen)%N;
    [|specialize (HIH 0 ds); rewrite drop_0 in HIH; auto].
  rewrite reNamedMatch_app_backslash, reNoCaptureMatch_app_backslash.
  destruct (reNamedMatch_FindSubmatchIndex input1) as [m|] eqn:Hm.
  { apply reNamedMatch_inv in Hm as (e & -> & He).
    cbn [off nth] in *.
    rewrite slice_from_Ok in Hp by lia.
    rewrite slice_from_Ok by (rewrite length_app; lia).
    rewrite drop_app_le by lia. cbn [bind] in *.
    destruct (parseBytes (drop (e + 1) input1)) as [ds'| |] eqn:Hrec;
      try discriminate.
    rewrite (HIH _ _ Hrec). reflexivity. }
  destruct (reNoCaptureMatch_FindSubmatchIndex input1) as [m|] eqn:Hm'.
  { apply reNoCaptureMatch_inv in Hm' as ->. cbn [off nth] in *.
    destruct (slice_from input1 (2 + 1)) as [i'| |] eqn:Hs; try discriminate.
    apply slice_from_inv in Hs as [Hle ->].
    rewrite slice_from_Ok by (rewrite length_app; lia).
    rewrite drop_app_le by lia. cbn [bind] in *.
    destruct (parseBytes (drop (2 + 1) input1)) as [ds'| |] eqn:Hrec;
      try discriminate.
    rewrite (HIH _ _ Hrec). reflexivity. }
  cbn [bind] in *.
  destruct (parseBytes input1) as [ds'| |] eqn:Hrec; try discriminate.
  specialize (HIH 0 ds'). rewrite drop_0 in HIH.
  rewrite (HIH Hrec). reflexivity.
Qed.

(** ** [buildMap] *)

(** A named entry that is already in the table makes the loop fail. *)
Lemma buildMap_loop_seen i names (r : gmap string nat) name :
  name ∈ names -> name <> UnnamedCapture -> is_Some (r !! name) ->
  buildMap_loop i names r = Err errDuplicateNamedGroup.
Proof.
  revert i r. induction names as [|h t IH]; intros i r Hin Hnamed Hseen.
  - inversion Hin.
  - cbn [buildMap_loop]. case_bool_decide as Hh.
    + destruct (r !! h) eqn:Hrh; [reflexivity|].
      apply elem_of_cons in Hin as [->|Hin].
      { rewrite Hrh in Hseen. destruct Hseen; discriminate. }
      apply IH; [assumption..|].
      destruct (decide (h = name)) as [->|Hne].
      * rewrite lookup_insert_eq. eauto.
      * rewrite lookup_insert_ne by assumption. assumption.
    + apply elem_of_cons in Hin as [->|Hin]; [tauto|].
      apply IH; assumption.
Qed.

(** The same name on two named entries makes the loop fail, whatever the
    table it starts from and whatever follows the second entry. *)
Lemma buildMap_loop_duplicate k names (r : gmap string nat) i j name :
  i < j -> names !! i = Some name -> names !! j = Some name ->
  name <> UnnamedCapture ->
  buildMap_loop k names r = Err errDuplicateNamedGroup.
Proof.
  revert k r i j.
  induction names as [|h t IH]; intros k r i j Hij Hi Hj Hnamed.
  - rewrite lookup_nil in Hi. discriminate.
  - destruct j as [|j]; [lia|]. cbn in Hj.
    assert (Hin : name ∈ t) by (eapply list_elem_of_lookup_2; eassumption).
    cbn [buildMap_loop]. destruct i as [|i].
    + cbn in Hi. injection Hi as ->.
      rewrite bool_decide_eq_true_2 by assumption.
      destruct (r !! name); [reflexivity|].
      apply (buildMap_loop_seen _ _ _ name); [assumption..|].
      rewrite lookup_insert_eq. eauto.
    + cbn in Hi. case_bool_decide.
      * destruct (r !! h); [reflexivity|].
        apply (IH _ _ i j); [lia|assumption..].
      * apply (IH _ _ i j); [lia|assumption..].
Qed.

(** What a successful loop has added to the table: entry [j] of the
    sequence, when named, is mapped to [k + j + 1]. *)
Lemma buildMap_loop_Ok k names (r r' : gmap string nat) :
  buildMap_loop k names r = Ok r' ->
  forall name i,
    r' !! name = Some i <->
    r !! name = Some i \/
    exists j, i = k + j + 1 /\ names !! j = Some name /\ name <> UnnamedCapture.
Proof.
  revert k r. induction names as [|h t IH]; intros k r Hloop name i.
  - cbn in Hloop. injection Hloop as ->. split; [auto|].
    intros [?|(j & _ & Hj & _)]; [assumption|].
    rewrite lookup_nil in Hj. discriminate.
  - cbn [buildMap_loop] in Hloop. case_bool_decide as Hh.
    + destruct (r !! h) eqn:Hrh; [discriminate|].
      rewrite (IH _ _ Hloop). split.
      * intros [Hin|(j & -> & Hj & Hn)].
        -- destruct (decide (h = name)) as [->|Hne].
           ++ rewrite lookup_insert_eq in Hin. injection Hin as <-.
              right. exists 0. split; [lia|]. auto.
           ++ rewrite lookup_insert_ne in Hin by assumption. auto.
        -- right. exists (S j). split; [lia|]. auto.
      * intros [Hin|(j & -> & Hj & Hn)].
        -- left. rewrite lookup_insert_ne; [assumption|congruence].
        -- destruct j as [|j]; cbn in Hj.
           ++ injection Hj as ->. left. rewrite lookup_insert_eq.
              f_equal. lia.
           ++ right. exists j. split; [lia|]. auto.
    + rewrite (IH _ _ Hloop). split.
      * intros [Hin|(j & -> & Hj & Hn)]; [auto|].
        right. exists (S j). split; [lia|]. auto.
      * intros [Hin|(j & -> & Hj & Hn)]; [auto|].
        destruct j as [|j]; cbn in Hj.
        -- injection Hj as ->. tauto.
        -- right. exists j. split; [lia|]. auto.
Qed.

(** The table of a successful [buildMap]: each name is mapped to the
    1-based position of its entry in the sequence. *)
Lemma buildMap_Ok names (r : gmap string nat) :
  buildMap names = Ok r ->
  forall name i,
    r !! name = Some i <->
    exists j, i = j + 1 /\ names !! j = Some name /\ name <> UnnamedCapture.
Proof.
  intros Hb name i. rewrite (buildMap_loop_Ok _ _ _ _ Hb).
  rewrite lookup_empty. split.
  - intros [?|(j & -> & ?)]; [discriminate|]. exists j. auto.
  - intros (j & -> & ?). right. exists j. auto.
Qed.

Lemma buildMap_loop_size k names (r r' : gmap string nat) :
  buildMap_loop k names r = Ok r' ->
  size r' = size r + length (filter (fun n => n <> UnnamedCapture) names).
Proof.
  revert k r. induction names as [|h t IH]; intros k r Hloop.
  - cbn in Hloop. injection Hloop as ->. cbn. lia.
  - cbn [buildMap_loop] in Hloop. case_bool_decide as Hh.
    + destruct (r !! h) eqn:Hrh; [discriminate|].
      rewrite filter_cons_True by exact Hh.
      rewrite (IH _ _ Hloop), map_size_insert_None by exact Hrh.
      cbn [length]. lia.
    + rewrite filter_cons_False by (intros Hn; apply Hn, Hh).
      by apply (IH (S k)).
Qed.

(** The table of a successful [buildMap] over a descriptor sequence: one
    entry for each named descriptor, with indices that are distinct and
    between 1 and the number of descriptors. *)
Lemma buildMap_table_invariant names (r : gmap string nat) :
  buildMap names = Ok r ->
  size r = length (filter (fun n => n <> UnnamedCapture) names) /\
  (forall name i, r !! name = Some i -> 1 <= i <= length names) /\
  (forall n1 n2 i, r !! n1 = Some i -> r !! n2 = Some i -> n1 = n2).
Proof.
  intros Hb. split; [|split].
  - rewrite (buildMap_loop_size _ _ _ _ Hb), map_size_empty. lia.
  - intros name i Hi. apply (buildMap_Ok _ _ Hb) in Hi as (j & -> & Hj & _).
    apply lookup_lt_Some in Hj. lia.
  - intros n1 n2 i H1 H2.
    apply (buildMap_Ok _ _ Hb) in H1 as (j1 & -> & Hj1 & _).
    apply (buildMap_Ok _ _ Hb) in H2 as (j2 & Hj & Hj2 & _).
    assert (j1 = j2) as -> by lia. congruence.
Qed.

Lemma buildMap_never_panics names : buildMap names <> Panic.
Proof.
  unfold buildMap. generalize 0, (∅ : gmap string nat).
  induction names as [|h t IH]; intros k r; cbn [buildMap_loop];
    [discriminate|].
  repeat case_match; auto; discriminate.
Qed.

(** ** The projection layer *)

Lemma getResult_Ok {T} (m : list T) pos x :
  getResult m pos = Ok x <-> m !! pos = Some x.
Proof.
  unfold getResult, index. destruct (m !! pos); split; congruence.
Qed.

Lemma getResult_Panic {T} (m : list T) pos :
  getResult m pos = Panic <-> length m <= pos.
Proof.
  unfold getResult, index. rewrite <- lookup_ge_None.
  destruct (m !! pos); split; congruence.
Qed.

(** [getResultIndex] reads the backing array of the raw match: the pair at
    [2 pos] and [2 pos + 1] of it, when the capacity reaches there. *)
Lemma getResultIndex_backing {T} (m : slice T) pos :
  pos * 2 + 2 <= length (elems m ++ spare m) ->
  exists a b, (elems m ++ spare m) !! (pos * 2) = Some a /\
    (elems m ++ spare m) !! (pos * 2 + 1) = Some b /\
    getResultIndex m pos = Ok (Some [a; b]).
Proof.
  intros Hlen. unfold getResultIndex, slice_range. cbn zeta.
  set (l := elems m ++ spare m) in *.
  replace ((pos * 2 <=? pos * 2 + 2) && (pos * 2 + 2 <=? length l)) with true
    by (symmetry; apply andb_true_iff; split; apply Nat.leb_le; lia).
  cbn [bind elems]. replace (pos * 2 + 2 - pos * 2) with 2 by lia.
  destruct (lookup_lt_is_Some_2 l (pos * 2)) as [a Ha]; [lia|].
  destruct (lookup_lt_is_Some_2 l (pos * 2 + 1)) as [b Hb]; [lia|].
  exists a, b. split; [assumption|]. split; [assumption|].
  do 2 f_equal.
  rewrite (drop_S _ a) by assumption. cbn [take]. f_equal.
  replace (S (pos * 2)) with (pos * 2 + 1) by lia.
  rewrite (drop_S _ b) by assumption. reflexivity.
Qed.

(** Within the length of the raw match the pair is made of its elements. *)
Lemma getResultIndex_Ok {T} (m : slice T) pos :
  pos * 2 + 2 <= length (elems m) ->
  exists a b, elems m !! (pos * 2) = Some a /\
    elems m !! (pos * 2 + 1) = Some b /\
    getResultIndex m pos = Ok (Some [a; b]).
Proof.
  intros Hlen.
  destruct (getResultIndex_backing m pos) as (a & b & Ha & Hb & Hab).
  { rewrite length_app. lia. }
  rewrite lookup_app_l in Ha by lia. rewrite lookup_app_l in Hb by lia.
  eauto.
Qed.

Lemma getResultIndex_Panic {T} (m : slice T) pos :
  length (elems m) + length (spare m) < pos * 2 + 2 ->
  getResultIndex m pos = Panic.
Proof.
  intros Hlen. unfold getResultIndex, slice_range. cbn zeta.
  rewrite length_app.
  replace (pos * 2 + 2 <=? length (elems m) + length (spare m)) with false
    by (symmetry; apply Nat.leb_gt; lia).
  rewrite andb_false_r. reflexivity.
Qed.

(** The loop over the name table: it yields the table of projected values
    when every projection succeeds, and fails as soon as one does not. *)
Lemma mapRe_loop_spec {M S} (submatches : M)
    (resultFunc : M -> nat -> result S) (namedMap : gmap string nat) :
  match map_fold (mapRe_step submatches resultFunc) (Ok ∅) namedMap with
  | Ok rv =>
    rv = omap (projected submatches resultFunc) namedMap /\
    forall k v, namedMap !! k = Some v ->
      exists x, resultFunc submatches v = Ok x
  | Err e =>
    exists k v, namedMap !! k = Some v /\ resultFunc submatches v = Err e
  | Panic =>
    exists k v, namedMap !! k = Some v /\ resultFunc submatches v = Panic
  end.
Proof.
  apply (map_fold_weak_ind (fun r (m : gmap string nat) =>
    match r with
    | Ok rv =>
      rv = omap (projected submatches resultFunc) m /\
      forall k v, m !! k = Some v -> exists x, resultFunc submatches v = Ok x
    | Err e => exists k v, m !! k = Some v /\ resultFunc submatches v = Err e
    | Panic => exists k v, m !! k = Some v /\ resultFunc submatches v = Panic
    end)).
  - split; [by rewrite omap_empty|]. intros k v Hk.
    rewrite lookup_empty in Hk. discriminate.
  - intros k v m r Hfresh IH. unfold mapRe_step.
    destruct r as [rv|e|]; cbn [bind].
    + destruct IH as [-> Hall].
      destruct (resultFunc submatches v) as [x|e|] eqn:Hv; cbn [bind].
      * split.
        -- rewrite (omap_insert_Some _ _ _ _ x); [reflexivity|].
           unfold projected. by rewrite Hv.
        -- intros k' v' Hk'.
           destruct (decide (k = k')) as [->|Hne].
           ++ rewrite lookup_insert_eq in Hk'. injection Hk' as <-. eauto.
           ++ rewrite lookup_insert_ne in Hk' by assumption. eauto.
      * exists k, v. by rewrite lookup_insert_eq.
      * exists k, v. by rewrite lookup_insert_eq.
    + destruct IH as (k' & v' & Hk' & Hv'). exists k', v'.
      split; [|assumption]. rewrite lookup_insert_ne; [assumption|congruence].
    + destruct IH as (k' & v' & Hk' & Hv'). exists k', v'.
      split; [|assumption]. rewrite lookup_insert_ne; [assumption|congruence].
Qed.

(** [mapRe] succeeds when every projection it makes does. *)
Lemma mapRe_Some_Ok {R M S} (zero : S) (re : RegexpNamed R)
    (submatches : M) (resultFunc : M -> nat -> result S) base :
  (forall k v, namedMap re !! k = Some v ->
     exists x, resultFunc submatches v = Ok x) ->
  resultFunc submatches 0 = Ok base ->
  mapRe zero re (Some submatches) resultFunc
  = Ok (base, Some (omap (projected submatches resultFunc) (namedMap re))).
Proof.
  intros Hall Hbase. unfold mapRe.
  pose proof (mapRe_loop_spec submatches resultFunc (namedMap re)) as Hloop.
  destruct (map_fold _ _ _) as [rv|e|]; cbn [bind].
  - destruct Hloop as [-> _]. by rewrite Hbase.
  - destruct Hloop as (k & v & Hk & He).
    destruct (Hall _ _ Hk) as [x Hx]. congruence.
  - destruct Hloop as (k & v & Hk & He).
    destruct (Hall _ _ Hk) as [x Hx]. congruence.
Qed.

(** What a successful [mapRe] on a match has computed. *)
Lemma mapRe_Some_inv {R M S} (zero : S) (re : RegexpNamed R)
    (submatches : M) (resultFunc : M -> nat -> result S) base mp :
  mapRe zero re (Some submatches) resultFunc = Ok (base, mp) ->
  resultFunc submatches 0 = Ok base /\
  mp = Some (omap (projected submatches resultFunc) (namedMap re)) /\
  forall k v, namedMap re !! k = Some v ->
    exists x, resultFunc submatches v = Ok x.
Proof.
  unfold mapRe.
  pose proof (mapRe_loop_spec submatches resultFunc (namedMap re)) as Hloop.
  destruct (map_fold _ _ _) as [rv|e|]; cbn [bind]; try discriminate.
  destruct Hloop as [-> Hall].
  destruct (resultFunc submatches 0); cbn [bind]; try discriminate.
  intros [= <- <-]. auto.
Qed.

(** [mapRe] panics when a table index is out of the match. *)
Lemma mapRe_getResult_Panic {R T} (zero : T) (re : RegexpNamed R)
    (submatches : list T) k v :
  namedMap re !! k = Some v -> length submatches <= v ->
  mapRe zero re (Some submatches) getResult = Panic.
Proof.
  intros Hk Hv. unfold mapRe.
  pose proof (mapRe_loop_spec submatches getResult (namedMap re)) as Hloop.
  destruct (map_fold _ _ _) as [rv|e|]; cbn [bind]; [| |reflexivity].
  - destruct Hloop as [_ Hall]. destruct (Hall _ _ Hk) as [x Hx].
    apply getResult_Ok, lookup_lt_Some in Hx. lia.
  - destruct Hloop as (k' & v' & _ & He). unfold getResult, index in He.
    destruct (submatches !! v'); discriminate.
Qed.

(** The loop of [mapReAll] appends, in order, the results of [mapRe] on
    each match; it succeeds exactly when all of them do. *)
Lemma mapReAll_loop_Ok {R M S} (zero : S) (re : RegexpNamed R)
    (matches : list (option M))
    (composeFunc : M -> nat -> result S) rv0 rv out :
  mapReAll_loop zero re matches composeFunc rv0 rv = Ok out <->
  exists rs,
    Forall2 (fun m r => mapRe zero re m composeFunc = Ok r) matches rs /\
    out = (rv0 ++ rs.*1, rv ++ rs.*2).
Proof.
  revert rv0 rv. induction matches as [|m ms IH]; intros rv0 rv;
    cbn [mapReAll_loop].
  - split.
    + intros [= <-]. exists []. split; [constructor|].
      cbn. by rewrite !app_nil_r.
    + intros (rs & Hrs & ->). apply Forall2_nil_inv_l in Hrs as ->.
      cbn. by rewrite !app_nil_r.
  - destruct (mapRe zero re m composeFunc) as [[base named]|e|] eqn:Hm;
      cbn [bind].
    + rewrite IH. split.
      * intros (rs & Hrs & ->). exists ((base, named) :: rs).
        split; [by constructor|]. cbn. by rewrite <- !app_assoc.
      * intros (rs & Hrs & ->).
        apply Forall2_cons_inv_l in Hrs as (r & rs' & Hr & Hrs' & ->).
        rewrite Hm in Hr. injection Hr as <-.
        exists rs'. split; [assumption|]. cbn. by rewrite <- !app_assoc.
    + split; [discriminate|]. intros (rs & Hrs & _).
      apply Forall2_cons_inv_l in Hrs as (r & rs' & Hr & _). congruence.
    + split; [discriminate|]. intros (rs & Hrs & _).
      apply Forall2_cons_inv_l in Hrs as (r & rs' & Hr & _). congruence.
Qed.

Lemma mapReAll_Ok {R M S} (zero : S) (re : RegexpNamed R)
    (matches : list (option M))
    (composeFunc : M -> nat -> result S) out :
  mapReAll zero re matches composeFunc = Ok out <->
  exists rs,
    Forall2 (fun m r => mapRe zero re m composeFunc = Ok r) matches rs /\
    out = (rs.*1, rs.*2).
Proof. unfold mapReAll. by rewrite mapReAll_loop_Ok. Qed.

(** [mapReAll] returns when [mapRe] returns on every match. *)
Lemma mapReAll_total {R M S} (zero : S) (re : RegexpNamed R)
    (matches : list (option M))
    (composeFunc : M -> nat -> result S) :
  Forall (fun m => is_Ok (mapRe zero re m composeFunc)) matches ->
  is_Ok (mapReAll zero re matches composeFunc).
Proof.
  intros Hall.
  assert (exists rs,
    Forall2 (fun m r => mapRe zero re m composeFunc = Ok r) matches rs)
    as [rs Hrs].
  { induction Hall as [|m ms [r Hr] _ [rs IH]].
    - exists []. constructor.
    - exists (r :: rs). by constructor. }
  exists (rs.*1, rs.*2). apply mapReAll_Ok. eauto.
Qed.
Lemma projected_getResult {T} (m : list T) v :
  projected m getResult v = m !! v.
Proof. unfold projected, getResult, index. by destruct (m !! v). Qed.

(** ** [Compile] *)

Section CompileFacts.
Context `{Engine}.

Lemma Compile_engine_error re e :
  regexp_Compile re = inr e -> Compile re = Err e.
Proof. unfold Compile. by intros ->. Qed.

Lemma Compile_engine_ok re c :
  regexp_Compile re = inl c ->
  Compile re =
    (map_ <-! scan_and_build re; Ok {| namedMap := map_; matcher := c |}).
Proof.
  unfold Compile, scan_and_build. intros ->.
  destruct (parseBytes _); reflexivity.
Qed.
End CompileFacts.

(** ** The scanner at an escape marker *)

Lemma parseBytes_at_backslash rest :
  parseBytes (x5c :: rest) =
    if length rest =? 0 then Err errTrailingBackslash else
    let '(nextrun, runlen) := utf8.DecodeRune rest in
    if negb (nextrun =? utf8.RuneError)%N then parseBytes (drop runlen rest)
    else Err errIncorrectRune.
Proof.
  rewrite parseBytes_unfold. unfold parseBytes_body at 1.
  rewrite utf8_facts.DecodeRune_ascii by (vm_compute; reflexivity).
  cbn [length Nat.eqb]. rewrite slice_from_Ok by (cbn [length]; lia).
  cbn [bind drop]. rewrite drop_0. change (Byte.to_N x5c =? rune_backslash)%N with true.
  cbv iota. destruct (Nat.eqb_spec (length rest) 0) as [|Hlen]; [reflexivity|].
  assert (Hne : rest <> []) by (intros ->; cbn in Hlen; lia).
  pose proof (utf8_facts.DecodeRune_width rest Hne) as Hw.
  destruct (utf8.DecodeRune rest) as [r w]; cbn [snd] in Hw.
  destruct (negb _); [|reflexivity].
  by rewrite slice_from_Ok by lia.
Qed.

(** ** The scanner at a non-capturing marker *)

(** After [(?:] the scanner resumes one byte beyond the marker: the byte
    that follows the marker is dropped without being scanned. *)
Lemma parseBytes_at_noncapturing_marker (b : byte) (rest : list byte) :
  parseBytes (list_byte_of_string "(?:" ++ b :: rest) = parseBytes rest.
Proof.
  rewrite parseBytes_unfold. unfold parseBytes_body at 1.
  change (list_byte_of_string "(?:" ++ b :: rest)
    with (x28 :: x3f :: x3a :: b :: rest).
  rewrite utf8_facts.DecodeRune_ascii by (vm_compute; reflexivity).
  cbn [length Nat.eqb]. rewrite slice_from_Ok by (cbn [length]; lia).
  cbn [bind drop]. rewrite ?drop_0.
  change (Byte.to_N x28 =? rune_backslash)%N with false.
  change (Byte.to_N x28 =? rune_lparen)%N with true. cbv iota.
  change (reNamedMatch_FindSubmatchIndex (x3f :: x3a :: b :: rest))
    with (@None (list nat)).
  change (reNoCaptureMatch_FindSubmatchIndex (x3f :: x3a :: b :: rest))
    with (Some [0; 2]).
  cbn [off nth]. rewrite slice_from_Ok by (cbn [length]; lia).
  cbn [bind drop Nat.add]. rewrite ?drop_0.
  destruct (parseBytes rest); reflexivity.
Qed.

(** With nothing after the marker the scanner slices out of range. *)
Example parseBytes_panics_at_final_marker :
  parseBytes (list_byte_of_string "\Q(?:") = Panic.
Proof. vm_compute. reflexivity. Qed.

(** ** More on [utf8.DecodeRune] *)

Lemma N_le_lor_l (a b : N) : (a <= N.lor a b)%N.
Proof.
  rewrite <- (N.lor_ldiff_and (N.lor a b) a).
  rewrite <- N.lxor_lor, <- N.add_nocarry_lxor.
  - assert (N.land (N.lor a b) a = a) as ->; [|lia].
    apply N.bits_inj. intros n. rewrite N.land_spec, N.lor_spec.
    destruct (N.testbit a n), (N.testbit b n); reflexivity.
  - apply N.bits_inj. intros n.
    rewrite !N.land_spec, N.ldiff_spec, N.lor_spec, N.bits_0.
    destruct (N.testbit a n), (N.testbit b n); reflexivity.
  - apply N.bits_inj. intros n.
    rewrite !N.land_spec, N.ldiff_spec, N.lor_spec, N.bits_0.
    destruct (N.testbit a n), (N.testbit b n); reflexivity.
Qed.

Lemma N_le_lor_r (a b : N) : (b <= N.lor a b)%N.
Proof. rewrite N.lor_comm. apply N_le_lor_l. Qed.

Module utf8_ranges.
Import utf8.

(** The first bytes behind each entry of [first] that starts a multi-byte
    encoding. *)
Lemma first_range b :
  (first b = as_ -> b < 0x80)%N /\
  (first b = xx -> 0x80 <= b)%N /\
  (first b = s1 -> 0xC2 <= b < 0xE0)%N /\
  (first b = s2 -> b = 0xE0)%N /\
  (first b = s3 -> 0xE1 <= b < 0xF0)%N /\
  (first b = s4 -> b = 0xED)%N /\
  (first b = s5 -> b = 0xF0)%N /\
  (first b = s6 -> 0xF1 <= b < 0xF4)%N /\
  (first b = s7 -> b = 0xF4)%N.
Proof.
  unfold first.
  repeat match goal with
  | |- context [(?x <? ?y)%N] => destruct (N.ltb_spec x y)
  | |- context [(?x =? ?y)%N] => destruct (N.eqb_spec x y)
  end; repeat apply conj; intros Hs; try discriminate Hs; lia.
Qed.

Lemma land_mask_mod (a : N) :
  N.land a mask2 = (a mod 32)%N /\ N.land a mask3 = (a mod 16)%N /\
  N.land a mask4 = (a mod 8)%N /\ N.land a maskx = (a mod 64)%N.
Proof.
  change mask2 with (N.ones 5). change mask3 with (N.ones 4).
  change mask4 with (N.ones 3). change maskx with (N.ones 6).
  rewrite !N.land_ones. auto.
Qed.

Ltac bool_to_prop :=
  repeat match goal with
  | H : (_ || _)%bool = false |- _ => apply orb_false_iff in H as [? ?]
  | H : (_ <? _)%N = false |- _ => apply N.ltb_ge in H
  | H : (_ <? _)%N = true |- _ => apply N.ltb_lt in H
  | H : (_ <? _) = false |- _ => apply Nat.ltb_ge in H
  | H : (_ <? _) = true |- _ => apply Nat.ltb_lt in H
  | H : (_ <=? _) = false |- _ => apply Nat.leb_gt in H
  | H : (_ <=? _) = true |- _ => apply Nat.leb_le in H
  end.

Ltac mod_facts :=
  repeat match goal with
  | H : context [(?a mod ?d)%N] |- _ =>
    pose proof (N.div_mod a d ltac:(discriminate));
    pose proof (N.mod_lt a d ltac:(discriminate));
    let q := fresh "q" in let m := fresh "m" in
    set (q := (a / d)%N) in *; set (m := (a mod d)%N) in *;
    clearbody q m
  end.

(** What [DecodeRune] returns: nothing on empty input; an ASCII byte as
    itself; otherwise a rune from [0x80] on, read from bytes that are all
    from [0x80] on. *)
Lemma DecodeRune_inv p r w :
  DecodeRune p = (r, w) ->
  (p = [] /\ r = RuneError /\ w = 0) \/
  (exists c t, p = c :: t /\ (Byte.to_N c < 0x80)%N /\
     r = Byte.to_N c /\ w = 1) \/
  ((0x80 <= r)%N /\ 1 <= w <= length p /\
   forall i, i < w -> (0x80 <= at_ p i)%N).
Proof.
  destruct p as [|c0 t].
  { intros [= <- <-]. auto. }
  intros Hd. right.
  pose proof (first_range (at_ (c0 :: t) 0)) as
    (Ras & Rxx & R1 & R2 & R3 & R4 & R5 & R6 & R7).
  unfold DecodeRune in Hd.
  destruct (utf8_facts.first_cases (at_ (c0 :: t) 0)) as
    [Hx|[Hx|[Hx|[Hx|[Hx|[Hx|[Hx|[Hx|Hx]]]]]]]]; rewrite Hx in Hd;
    [specialize (Ras Hx)|specialize (Rxx Hx)|specialize (R1 Hx)|
     specialize (R2 Hx)|specialize (R3 Hx)|specialize (R4 Hx)|
     specialize (R5 Hx)|specialize (R6 Hx)|specialize (R7 Hx)];
    clear Hx;
    repeat match type of Hd with
    | context [(as_ <=? ?x)%N] =>
      let v := eval vm_compute in (as_ <=? x)%N in
      change (as_ <=? x)%N with v in Hd
    | context [N.testbit ?x 0] =>
      let v := eval vm_compute in (N.testbit x 0) in
      change (N.testbit x 0) with v in Hd
    | context [N.to_nat (N.land ?x 7)] =>
      let v := eval vm_compute in (N.to_nat (N.land x 7)) in
      change (N.to_nat (N.land x 7)) with v in Hd
    | context [acceptRanges (N.shiftr ?x 4)] =>
      let v := eval vm_compute in (acceptRanges (N.shiftr x 4)) in
      change (acceptRanges (N.shiftr x 4)) with v in Hd
    end; cbn [lo hi] in Hd; unfold locb, hicb in Hd.
  all: cbn [length Nat.ltb Nat.leb] in Hd.
  all: repeat match type of Hd with
       | context [if ?b then _ else _] => destruct b eqn:?
       end; injection Hd as <- <-; bool_to_prop.
  all: first
    [ left; exists c0, t; split; [reflexivity|]; split; [exact Ras|];
      split; reflexivity
    | right; split; [|split; [cbn [length]; lia|]] ].
  all: try (intros i Hi; destruct i as [|[|[|[|i]]]]; lia).
  all: try (unfold RuneError; lia).
  all: repeat match goal with
       | |- context [N.lor ?a ?b] =>
         pose proof (N_le_lor_l a b); pose proof (N_le_lor_r a b);
         generalize dependent (N.lor a b); intros
       | H : context [N.lor ?a ?b] |- _ =>
         pose proof (N_le_lor_l a b); pose proof (N_le_lor_r a b);
         generalize dependent (N.lor a b); intros
       end.
  all: rewrite ?N.shiftl_mul_pow2 in *.
  all: change (2 ^ 6)%N with 64%N in *; change (2 ^ 12)%N with 4096%N in *;
       change (2 ^ 18)%N with 262144%N in *.
  all: repeat match goal with
       | H : context [N.land ?a mask2] |- _ =>
         rewrite (proj1 (land_mask_mod a)) in H
       | H : context [N.land ?a mask3] |- _ =>
         rewrite (proj1 (proj2 (land_mask_mod a))) in H
       | H : context [N.land ?a mask4] |- _ =>
         rewrite (proj1 (proj2 (proj2 (land_mask_mod a)))) in H
       | H : context [N.land ?a maskx] |- _ =>
         rewrite (proj2 (proj2 (proj2 (land_mask_mod a)))) in H
       end.
  all: repeat match goal with
       | H : _ = _ -> _ |- _ => clear H
       end.
  all: mod_facts; lia.
Qed.

(** A rune below [0x80] is the first byte of the input, read alone. *)
Lemma DecodeRune_ascii_inv p r w :
  DecodeRune p = (r, w) -> (r < 0x80)%N ->
  exists c t, p = c :: t /\ Byte.to_N c = r /\ w = 1.
Proof.
  intros Hd Hr.
  destruct (DecodeRune_inv _ _ _ Hd) as
    [(_ & -> & _)|[(c & t & -> & _ & -> & ->)|(Hge & _)]].
  - unfold RuneError in Hr. lia.
  - eauto.
  - lia.
Qed.

End utf8_ranges.

Lemma byte_of_backslash c : Byte.to_N c = rune_backslash -> c = x5c.
Proof. destruct c; intros Hc; try reflexivity; discriminate Hc. Qed.

Lemma byte_of_lparen c : Byte.to_N c = rune_lparen -> c = x28.
Proof. destruct c; intros Hc; try reflexivity; discriminate Hc. Qed.

Lemma byte_of_gt c : Byte.to_N c = rune_gt -> c = x3e.
Proof. destruct c; intros Hc; try reflexivity; discriminate Hc. Qed.

Lemma byte_of_newline c : Byte.to_N c = rune_newline -> c = x0a.
Proof. destruct c; intros Hc; try reflexivity; discriminate Hc. Qed.

Lemma bind_Ok_app_nil {A} (r : result (list A)) :
  (rec <-! r; Ok ([] ++ rec)) = r.
Proof. by destruct r. Qed.

Lemma reNoCaptureMatch_prefix t m :
  reNoCaptureMatch_FindSubmatchIndex t = Some m ->
  exists rest, t = x3f :: x3a :: rest.
Proof.
  unfold reNoCaptureMatch_FindSubmatchIndex.
  change (list_byte_of_string "?:") with [x3f; x3a].
  destruct t as [|a [|b rest]]; cbn [has_prefix]; try discriminate.
  - by rewrite andb_false_r.
  - destruct (Byte.eqb x3f a) eqn:Ha; [|discriminate].
    destruct (Byte.eqb x3a b) eqn:Hb; [|discriminate].
    apply Byte.byte_dec_bl in Ha as <-. apply Byte.byte_dec_bl in Hb as <-.
    eauto.
Qed.

(** ** One step of the scanner *)

(** On non-empty input the scanner either stops with one of its two
    errors, at a backslash; or panics, its input being [(?:] and nothing
    more; or goes on with a strictly shorter rest of its input, in front of whose
    descriptors it puts at most one descriptor, and only at an opening
    parenthesis. *)
Lemma parseBytes_step input :
  input <> [] ->
  (head input = Some x5c /\
   (parseBytes input = Err errTrailingBackslash \/
    parseBytes input = Err errIncorrectRune)) \/
  (input = [x28; x3f; x3a] /\ parseBytes input = Panic) \/
  exists k g,
    1 <= k <= length input /\
    (g = [] \/ exists d, g = [d] /\ head input = Some x28) /\
    parseBytes input = (rec <-! parseBytes (drop k input); Ok (g ++ rec)).
Proof.
  intros Hne. rewrite parseBytes_unfold. unfold parseBytes_body.
  rewrite length_eqb_0_false by assumption.
  pose proof (utf8_facts.DecodeRune_width input Hne) as Hw.
  destruct (utf8.DecodeRune input) as [nextrun runlen] eqn:Hd.
  cbn [snd] in Hw. rewrite slice_from_Ok by lia. cbn [bind].
  destruct (N.eqb_spec nextrun rune_backslash) as [->|Hnb].
  { destruct (utf8_ranges.DecodeRune_ascii_inv _ _ _ Hd)
      as (c & t & -> & Hc & ->); [vm_compute; reflexivity|].
    apply byte_of_backslash in Hc as ->. cbn [drop]. rewrite drop_0.
    destruct (Nat.eqb_spec (length t) 0) as [|Hlen]; [by left; auto|].
    assert (Ht : t <> []) by (intros ->; cbn in Hlen; lia).
    pose proof (utf8_facts.DecodeRune_width t Ht) as Hw2.
    destruct (utf8.DecodeRune t) as [r2 w2]. cbn [snd] in Hw2.
    destruct (negb _); [|by left; auto].
    rewrite slice_from_Ok by lia. cbn [bind].
    right; right. exists (S w2), []. split; [cbn [length]; lia|].
    split; [auto|]. cbn [drop]. by rewrite bind_Ok_app_nil. }
  destruct (N.eqb_spec nextrun rune_lparen) as [->|Hnp].
  { destruct (utf8_ranges.DecodeRune_ascii_inv _ _ _ Hd)
      as (c & t & -> & Hc & ->); [vm_compute; reflexivity|].
    apply byte_of_lparen in Hc as ->. cbn [drop]. rewrite drop_0.
    destruct (reNamedMatch_FindSubmatchIndex t) as [m|] eqn:Hm.
    { apply reNamedMatch_inv in Hm as (e & -> & He). cbn [off nth].
      cbv zeta. rewrite slice_from_Ok by lia. cbn [bind].
      right; right.
      exists (S (e + 1)), [string_of_list_byte (submatch_bytes t 3 e)].
      split; [cbn [length]; lia|]. split; [right; eauto|]. reflexivity. }
    destruct (reNoCaptureMatch_FindSubmatchIndex t) as [m|] eqn:Hm'.
    { destruct (reNoCaptureMatch_prefix _ _ Hm') as (rest & ->).
      apply reNoCaptureMatch_inv in Hm' as ->. cbn [off nth].
      unfold slice_from. destruct (Nat.leb_spec (2 + 1) (length (x3f :: x3a :: rest))) as [|Hlt].
      - cbn [bind]. right; right. exists (S (2 + 1)), [].
        split; [cbn [length] in *; lia|]. split; [auto|]. reflexivity.
      - right; left. destruct rest; [auto|cbn [length] in Hlt; lia]. }
    cbn [bind]. right; right. exists 1, [UnnamedCapture].
    split; [cbn [length]; lia|]. split; [right; eauto|]. reflexivity. }
  right; right. exists runlen, []. split; [lia|]. split; [auto|].
  by rewrite bind_Ok_app_nil.
Qed.

Lemma count_byte_drop c k l : count_byte c (drop k l) <= count_byte c l.
Proof.
  revert k. induction l as [|b l IH]; intros [|k]; cbn [drop count_byte];
    try lia.
  specialize (IH k). lia.
Qed.

Lemma count_byte_head_drop c k l :
  head l = Some c -> 1 <= k ->
  count_byte c (drop k l) + 1 <= count_byte c l.
Proof.
  destruct l as [|b l]; [discriminate|]. intros [= ->] Hk.
  destruct k as [|k]; [lia|]. cbn [drop count_byte].
  rewrite (Byte.byte_dec_lb (eq_refl c)).
  pose proof (count_byte_drop c k l). lia.
Qed.

Lemma count_byte_head_pos c l : head l = Some c -> 1 <= count_byte c l.
Proof.
  intros Hh. pose proof (count_byte_head_drop c 1 l Hh ltac:(lia)). lia.
Qed.

Lemma count_byte_0_head c b l : count_byte c (b :: l) = 0 -> b <> c.
Proof.
  cbn [count_byte]. intros Hc ->.
  rewrite (Byte.byte_dec_lb (eq_refl c)) in Hc. lia.
Qed.

Lemma count_byte_0_tail c b l :
  count_byte c (b :: l) = 0 -> count_byte c l = 0.
Proof. cbn [count_byte]. lia. Qed.

Lemma at_middle (name rest : list byte) c :
  utf8.at_ (name ++ c :: rest) (length name) = Byte.to_N c.
Proof. unfold utf8.at_. by rewrite nth_middle. Qed.

(** ** What the scanner returns *)

Lemma parseBytes_Err_inv input e :
  parseBytes input = Err e ->
  e = errTrailingBackslash \/ e = errIncorrectRune.
Proof.
  remember (length input) as n eqn:Hn. revert input Hn.
  induction n as [n IH] using lt_wf_ind. intros input -> He.
  destruct input as [|c t]; [discriminate|].
  destruct (parseBytes_step (c :: t)) as
    [(_ & [H|H])|[(_ & H)|(k & g & Hk & _ & H)]]; [discriminate| | | |];
    rewrite H in He.
  - injection He as <-. auto.
  - injection He as <-. auto.
  - discriminate.
  - destruct (parseBytes (drop k (c :: t))) as [rec|e'|] eqn:Hrec;
      cbn [bind] in He; try discriminate.
    injection He as <-.
    apply (IH (length (drop k (c :: t)))) in Hrec; [assumption| |reflexivity].
    rewrite length_drop. lia.
Qed.

Lemma parseBytes_no_backslash input e :
  count_byte x5c input = 0 -> parseBytes input <> Err e.
Proof.
  remember (length input) as n eqn:Hn. revert input Hn.
  induction n as [n IH] using lt_wf_ind. intros input -> Hc.
  destruct input as [|c t]; [discriminate|].
  destruct (parseBytes_step (c :: t)) as
    [(Hh & _)|[(_ & H)|(k & g & Hk & _ & H)]]; [discriminate| | |].
  - apply count_byte_head_pos in Hh. lia.
  - rewrite H. discriminate.
  - rewrite H.
    pose proof (count_byte_drop x5c k (c :: t)) as Hd.
    assert (Hrec : parseBytes (drop k (c :: t)) <> Err e).
    { apply (IH (length (drop k (c :: t)))); [|reflexivity|lia].
      rewrite length_drop. lia. }
    destruct (parseBytes (drop k (c :: t))); cbn [bind]; congruence.
Qed.

Lemma parseBytes_no_lparen input :
  count_byte x28 input = 0 ->
  parseBytes input = Ok [] \/ exists e, parseBytes input = Err e.
Proof.
  remember (length input) as n eqn:Hn. revert input Hn.
  induction n as [n IH] using lt_wf_ind. intros input -> Hc.
  destruct input as [|c t]; [by left|].
  destruct (parseBytes_step (c :: t)) as
    [(_ & [H|H])|[(Hh & _)|(k & g & Hk & Hg & H)]]; [discriminate| | | |].
  - right. eauto.
  - right. eauto.
  - rewrite Hh in Hc. discriminate Hc.
  - rewrite H. destruct Hg as [->|(d & _ & Hh)].
    + rewrite bind_Ok_app_nil.
      pose proof (count_byte_drop x28 k (c :: t)) as Hd.
      apply (IH (length (drop k (c :: t)))); [|reflexivity|lia].
      rewrite length_drop. lia.
    + apply count_byte_head_pos in Hh. lia.
Qed.

Lemma parseBytes_count_lparen input ds :
  parseBytes input = Ok ds -> length ds <= count_byte x28 input.
Proof.
  remember (length input) as n eqn:Hn. revert input ds Hn.
  induction n as [n IH] using lt_wf_ind. intros input ds -> Hp.
  destruct input as [|c t]; [injection Hp as <-; cbn; lia|].
  destruct (parseBytes_step (c :: t)) as
    [(_ & [H|H])|[(_ & H)|(k & g & Hk & Hg & H)]]; [discriminate| | | |];
    rewrite H in Hp; try discriminate.
  destruct (parseBytes (drop k (c :: t))) as [rec|e'|] eqn:Hrec;
    cbn [bind] in Hp; try discriminate.
  injection Hp as <-.
  apply (IH (length (drop k (c :: t)))) in Hrec;
    [| rewrite length_drop; lia | reflexivity].
  rewrite length_app.
  destruct Hg as [->|(d & -> & Hh)]; cbn [length].
  - pose proof (count_byte_drop x28 k (c :: t)). lia.
  - pose proof (count_byte_head_drop x28 k (c :: t) Hh ltac:(lia)). lia.
Qed.

(** The scanner panics only on input that ends with [(?:]. *)
Lemma parseBytes_Panic_suffix input :
  parseBytes input = Panic ->
  exists p, input = p ++ [x28; x3f; x3a].
Proof.
  remember (length input) as n eqn:Hn. revert input Hn.
  induction n as [n IH] using lt_wf_ind. intros input -> Hp.
  destruct input as [|c t]; [discriminate|].
  destruct (parseBytes_step (c :: t)) as
    [(_ & [H|H])|[(Hin & _)|(k & g & Hk & _ & H)]]; [discriminate| | | |].
  - congruence.
  - congruence.
  - exists []. exact Hin.
  - rewrite H in Hp.
    destruct (parseBytes (drop k (c :: t))) as [rec|e'|] eqn:Hrec;
      cbn [bind] in Hp; try discriminate.
    apply (IH (length (drop k (c :: t)))) in Hrec as (p & Hrec);
      [| rewrite length_drop; lia | reflexivity].
    exists (take k (c :: t) ++ p).
    rewrite <- app_assoc, <- Hrec. by rewrite take_drop.
Qed.

(** Bytes other than the backslash and the opening parenthesis, in front
    of an input that is empty or starts with an ASCII byte, are skipped
    whole, however they decode. *)
Lemma parseBytes_skip_plain text rest :
  count_byte x5c text = 0 -> count_byte x28 text = 0 ->
  starts_ascii_or_empty rest = true ->
  parseBytes (text ++ rest) = parseBytes rest.
Proof.
  remember (length text) as n eqn:Hn. revert text Hn.
  induction n as [n IH] using lt_wf_ind. intros text -> Hb Hp Hr.
  destruct text as [|c t]; [reflexivity|].
  rewrite parseBytes_unfold. unfold parseBytes_body at 1.
  rewrite length_eqb_0_false by discriminate.
  pose proof (utf8_facts.DecodeRune_width ((c :: t) ++ rest)
                ltac:(discriminate)) as Hw.
  destruct (utf8.DecodeRune ((c :: t) ++ rest)) as [r w] eqn:Hd.
  cbn [snd] in Hw. rewrite slice_from_Ok by lia. cbn [bind].
  assert (w <= length (c :: t) /\ r <> rune_backslash
                /\ r <> rune_lparen) as (Hwt & Hrb & Hrp).
  { destruct (utf8_ranges.DecodeRune_inv _ _ _ Hd) as
      [(Habs & _)|[(c' & t' & Heq & _ & -> & ->)|(Hge & Hwl & Hhigh)]].
    - discriminate Habs.
    - injection Heq as <- _. split; [cbn [length]; lia|].
      split; intros Hc.
      + apply byte_of_backslash in Hc as ->.
        by apply count_byte_0_head in Hb.
      + apply byte_of_lparen in Hc as ->.
        by apply count_byte_0_head in Hp.
    - split; [|unfold rune_backslash, rune_lparen; lia].
      destruct (Nat.le_gt_cases w (length (c :: t))) as [|Hgt];
        [assumption|exfalso].
      specialize (Hhigh (length (c :: t)) Hgt).
      destruct rest as [|d rest'].
      + rewrite app_nil_r in Hwl. lia.
      + rewrite at_middle in Hhigh. cbn [starts_ascii_or_empty] in Hr.
        apply N.ltb_lt in Hr. lia. }
  rewrite (proj2 (N.eqb_neq _ _) Hrb), (proj2 (N.eqb_neq _ _) Hrp).
  rewrite drop_app_le by assumption.
  apply (IH (length (drop w (c :: t)))); [| reflexivity | | | assumption].
  - rewrite length_drop. lia.
  - pose proof (count_byte_drop x5c w (c :: t)). lia.
  - pose proof (count_byte_drop x28 w (c :: t)). lia.
Qed.

(** ** The scanner at an opening parenthesis *)

(** The lazy loop of [reNamedMatch] stops at the first [>] after a name
    that holds neither [>] nor a newline, however its bytes decode. *)
Lemma lazy_dot_until_gt_name fuel name rest pos :
  count_byte x3e name = 0 -> count_byte x0a name = 0 ->
  length name < fuel ->
  lazy_dot_until_gt fuel (name ++ x3e :: rest) pos = Some (pos + length name).
Proof.
  revert name pos. induction fuel as [|fuel IH]; intros name pos Hgt Hnl Hf;
    [lia|].
  cbn [lazy_dot_until_gt].
  rewrite length_eqb_0_false by (destruct name; discriminate).
  destruct (utf8.DecodeRune (name ++ x3e :: rest)) as [r w] eqn:Hd.
  destruct name as [|c name'].
  { cbn [app] in Hd.
    rewrite utf8_facts.DecodeRune_ascii in Hd by (vm_compute; reflexivity).
    injection Hd as <- <-. cbn. f_equal. lia. }
  pose proof (count_byte_0_head _ _ _ Hgt) as Hcgt.
  pose proof (count_byte_0_head _ _ _ Hnl) as Hcnl.
  destruct (utf8_ranges.DecodeRune_inv _ _ _ Hd) as
    [(Hnil & _)|[(c' & t' & Hp & Hlt & -> & ->)|(Hge & Hw & Hbytes)]].
  - discriminate.
  - cbn [app] in Hp. injection Hp as <- <-.
    destruct (N.eqb_spec (Byte.to_N c) rune_gt) as [Hr|_];
      [by apply byte_of_gt in Hr|].
    destruct (N.eqb_spec (Byte.to_N c) rune_newline) as [Hr|_];
      [by apply byte_of_newline in Hr|].
    cbn [app drop]. rewrite drop_0.
    rewrite IH; [f_equal; cbn [length]; lia|by eapply count_byte_0_tail..|].
    cbn [length] in Hf. lia.
  - destruct (N.eqb_spec r rune_gt) as [->|_];
      [unfold rune_gt in Hge; lia|].
    destruct (N.eqb_spec r rune_newline) as [->|_];
      [unfold rune_newline in Hge; lia|].
    assert (Hwn : w <= length (c :: name')).
    { destruct (Nat.le_gt_cases w (length (c :: name'))) as [|Hlt];
        [assumption|].
      specialize (Hbytes _ Hlt). rewrite at_middle in Hbytes.
      vm_compute in Hbytes. by destruct Hbytes. }
    rewrite drop_app_le by assumption.
    rewrite IH.
    + f_equal. rewrite length_drop. lia.
    + pose proof (count_byte_drop x3e w (c :: name')). lia.
    + pose proof (count_byte_drop x0a w (c :: name')). lia.
    + rewrite length_drop. lia.
Qed.

Lemma reNamedMatch_name name rest :
  count_byte x3e name = 0 -> count_byte x0a name = 0 ->
  reNamedMatch_FindSubmatchIndex
    (list_byte_of_string "?P<" ++ name ++ x3e :: rest)
  = Some [0; 3 + length name + 1; 3; 3 + length name].
Proof.
  intros Hgt Hnl. unfold reNamedMatch_FindSubmatchIndex.
  change (list_byte_of_string "?P<" ++ name ++ x3e :: rest)
    with (x3f :: x50 :: x3c :: name ++ x3e :: rest).
  change (has_prefix (list_byte_of_string "?P<")
            (x3f :: x50 :: x3c :: name ++ x3e :: rest)) with true.
  cbn [drop]. rewrite drop_0.
  rewrite lazy_dot_until_gt_name; [reflexivity|assumption..|].
  cbn [length]. rewrite length_app. lia.
Qed.

(** A name-capture marker whose name holds neither [>] nor a newline
    yields that name, byte for byte, and the scan resumes after the [>]. *)
Lemma parseBytes_at_named_marker name rest :
  count_byte x3e name = 0 -> count_byte x0a name = 0 ->
  parseBytes (list_byte_of_string "(?P<" ++ name ++ x3e :: rest)
  = (rec <-! parseBytes rest; Ok (string_of_list_byte name :: rec)).
Proof.
  intros Hgt Hnl. rewrite parseBytes_unfold. unfold parseBytes_body at 1.
  change (list_byte_of_string "(?P<" ++ name ++ x3e :: rest)
    with (x28 :: (list_byte_of_string "?P<" ++ name ++ x3e :: rest)).
  rewrite utf8_facts.DecodeRune_ascii by (vm_compute; reflexivity).
  cbn [length Nat.eqb]. rewrite slice_from_Ok by (cbn [length]; lia).
  cbn [bind drop]. rewrite drop_0.
  change (Byte.to_N x28 =? rune_backslash)%N with false.
  change (Byte.to_N x28 =? rune_lparen)%N with true. cbv iota.
  rewrite reNamedMatch_name by assumption. cbn [off nth].
  change (list_byte_of_string "?P<" ++ name ++ x3e :: rest)
    with (x3f :: x50 :: x3c :: name ++ x3e :: rest).
  cbv zeta. unfold submatch_bytes.
  rewrite slice_from_Ok by (cbn [length]; rewrite length_app;
    cbn [length]; lia).
  cbn [bind].
  replace (3 + length name - 3) with (length name) by lia.
  cbn [drop]. rewrite drop_0, take_app_length.
  replace (3 + length name + 1) with (S (S (S (length name + 1)))) by lia.
  cbn [drop]. rewrite drop_app_ge by lia.
  replace (length name + 1 - length name) with 1 by lia. cbn [drop].
  rewrite drop_0. reflexivity.
Qed.

(** An opening parenthesis that no [?] follows yields the unnamed
    descriptor, and the scan resumes right after the parenthesis. *)
Lemma parseBytes_at_plain_lparen rest :
  head rest <> Some x3f ->
  parseBytes (x28 :: rest)
  = (rec <-! parseBytes rest; Ok (UnnamedCapture :: rec)).
Proof.
  intros Hq. rewrite parseBytes_unfold. unfold parseBytes_body at 1.
  rewrite utf8_facts.DecodeRune_ascii by (vm_compute; reflexivity).
  cbn [length Nat.eqb]. rewrite slice_from_Ok by (cbn [length]; lia).
  cbn [bind drop]. rewrite drop_0.
  change (Byte.to_N x28 =? rune_backslash)%N with false.
  change (Byte.to_N x28 =? rune_lparen)%N with true. cbv iota.
  assert (Hn : reNamedMatch_FindSubmatchIndex rest = None).
  { unfold reNamedMatch_FindSubmatchIndex.
    destruct rest as [|b rest']; [reflexivity|].
    change (list_byte_of_string "?P<") with [x3f; x50; x3c].
    cbn [has_prefix].
    destruct (Byte.eqb x3f b) eqn:Hb; [|reflexivity].
    apply Byte.byte_dec_bl in Hb as <-. by destruct Hq. }
  assert (Hc : reNoCaptureMatch_FindSubmatchIndex rest = None).
  { unfold reNoCaptureMatch_FindSubmatchIndex.
    destruct rest as [|b rest']; [reflexivity|].
    change (list_byte_of_string "?:") with [x3f; x3a].
    cbn [has_prefix].
    destruct (Byte.eqb x3f b) eqn:Hb; [|reflexivity].
    apply Byte.byte_dec_bl in Hb as <-. by destruct Hq. }
  rewrite Hn, Hc. reflexivity.
Qed.

(** ** More on [buildMap] *)

Lemma buildMap_loop_outcome k names (r : gmap string nat) :
  is_Ok (buildMap_loop k names r) \/
  buildMap_loop k names r = Err errDuplicateNamedGroup.
Proof.
  revert k r. induction names as [|h t IH]; intros k r; cbn [buildMap_loop].
  - left. by eexists.
  - case_bool_decide; [destruct (r !! h)|]; auto.
Qed.

Lemma buildMap_loop_Ok_iff k names (r : gmap string nat) :
  is_Ok (buildMap_loop k names r) <->
  NoDup (filter (fun n => n <> UnnamedCapture) names) /\
  forall n, n ∈ filter (fun n => n <> UnnamedCapture) names -> r !! n = None.
Proof.
  revert k r. induction names as [|h t IH]; intros k r; cbn [buildMap_loop].
  - rewrite filter_nil. split.
    + intros _. split; [constructor|]. intros n Hn. inversion Hn.
    + intros _. by eexists.
  - case_bool_decide as Hh.
    + rewrite filter_cons_True by exact Hh.
      destruct (r !! h) eqn:Hrh.
      * split; [intros [a Ha]; discriminate|].
        intros [_ Hfree]. specialize (Hfree h ltac:(left)). congruence.
      * rewrite IH, NoDup_cons. split.
        -- intros [Hnd Hfree]. split; [split; [|assumption]|].
           ++ intros Hin. specialize (Hfree _ Hin).
              rewrite lookup_insert_eq in Hfree. discriminate.
           ++ intros n [->|Hin]%elem_of_cons; [assumption|].
              specialize (Hfree _ Hin).
              destruct (decide (h = n)) as [->|Hne].
              ** rewrite lookup_insert_eq in Hfree. discriminate.
              ** by rewrite lookup_insert_ne in Hfree.
        -- intros [[Hnotin Hnd] Hfree]. split; [assumption|].
           intros n Hin. rewrite lookup_insert_ne; [|by intros ->].
           apply Hfree. by right.
    + rewrite filter_cons_False by (intros Hn; apply Hn, Hh). apply IH.
Qed.

Lemma buildMap_loop_shift n k names (r : gmap string nat) :
  buildMap_loop (n + k) names ((fun i => n + i) <$> r)
  = shift_result n (buildMap_loop k names r).
Proof.
  revert k r. induction names as [|h t IH]; intros k r; cbn [buildMap_loop].
  - reflexivity.
  - case_bool_decide.
    + rewrite lookup_fmap. destruct (r !! h) eqn:Hrh; cbn; [reflexivity|].
      rewrite <- IH, fmap_insert. f_equal; [lia|]. f_equal. lia.
    + rewrite <- IH. f_equal. lia.
Qed.

Lemma buildMap_loop_skip_unnamed n k names (r : gmap string nat) :
  buildMap_loop k (replicate n UnnamedCapture ++ names) r
  = buildMap_loop (n + k) names r.
Proof.
  revert k. induction n as [|n IH]; intros k; [reflexivity|].
  cbn [replicate app buildMap_loop].
  rewrite bool_decide_eq_false_2 by (intros Hn; by apply Hn).
  rewrite IH. f_equal. lia.
Qed.

(** ** More on the projection layer *)

(** For a projection function that returns no error, [mapRe] on a match
    returns no error either, and panics exactly when the projection of
    index 0 or of some index of the table does. *)
Lemma mapRe_Panic_iff {R M S} (zero : S) (re : RegexpNamed R)
    (m : M) (f : M -> nat -> result S) :
  (forall v e, f m v <> Err e) ->
  (forall e, mapRe zero re (Some m) f <> Err e) /\
  (mapRe zero re (Some m) f = Panic <->
   f m 0 = Panic \/
   exists name i, namedMap re !! name = Some i /\ f m i = Panic).
Proof.
  intros Hnoerr. unfold mapRe.
  pose proof (mapRe_loop_spec m f (namedMap re)) as Hloop.
  destruct (map_fold _ _ _) as [rv|e|]; cbn [bind].
  - destruct Hloop as [_ Hall].
    destruct (f m 0) as [base|e|] eqn:H0; cbn [bind].
    + split; [discriminate|]. split; [discriminate|].
      intros [?|(name & i & Hn & Hp)]; [discriminate|].
      destruct (Hall _ _ Hn) as [x Hx]. congruence.
    + by destruct (Hnoerr 0 e).
    + split; [discriminate|]. split; auto.
  - destruct Hloop as (k & v & _ & He). by destruct (Hnoerr v e).
  - split; [discriminate|]. split; [|reflexivity].
    intros _. destruct Hloop as (k & v & Hk & Hp). eauto.
Qed.

Lemma getResult_not_Err {T} (m : list T) v e : getResult m v <> Err e.
Proof. unfold getResult, index. by destruct (m !! v). Qed.

Lemma getResultIndex_not_Err {T} (m : slice T) v e :
  getResultIndex m v <> Err e.
Proof.
  unfold getResultIndex, slice_range. cbn zeta. by destruct (_ && _).
Qed.

(** [getResultIndex] panics exactly beyond the capacity of the raw match. *)
Lemma getResultIndex_Panic_iff {T} (m : slice T) v :
  getResultIndex m v = Panic <->
  length (elems m) + length (spare m) < v * 2 + 2.
Proof.
  split; [|apply getResultIndex_Panic].
  intros Hp.
  destruct (Nat.lt_ge_cases (length (elems m) + length (spare m))
              (v * 2 + 2)) as [|Hge]; [assumption|].
  destruct (getResultIndex_backing m v) as (a & b & _ & _ & Hab);
    [rewrite length_app; lia|congruence].
Qed.



(** ** The earlier package and the current one *)

Lemma with_earlier_errors_bind {A B} (r : result A) (k : A -> B) :
  with_earlier_errors (x <-! r; Ok (k x))
  = (x <-! with_earlier_errors r; Ok (k x)).
Proof. by destruct r. Qed.

(** At every depth of recursion the earlier scanner, started with an
    [until] that is neither a backslash nor an opening parenthesis, and the
    current one return the same, up to the text of the errors. *)
Lemma earlier_parseBytes_fuel n in_ until :
  until <> rune_backslash -> until <> rune_lparen ->
  regex_named.parseBytes_fuel n in_ until
  = with_earlier_errors (parseBytes_fuel n in_).
Proof.
  revert in_ until. induction n as [|n IH]; intros in_ until Hb Hp;
    [reflexivity|].
  cbn [regex_named.parseBytes_fuel parseBytes_fuel].
  unfold regex_named.parseBytes_body, parseBytes_body.
  destruct (length in_ =? 0); [reflexivity|].
  destruct (utf8.DecodeRune in_) as [nextrun runlen].
  destruct (slice_from in_ runlen) as [in1|e|] eqn:Hs; cbn [bind];
    [|by apply slice_from_not_Err in Hs|reflexivity].
  clear Hs.
  assert (H0 : forall i, regex_named.parseBytes_fuel n i 0%N
                         = with_earlier_errors (parseBytes_fuel n i))
    by (intros i; apply IH; discriminate).
  destruct (N.eqb_spec nextrun until) as [->|Hnu].
  { rewrite (proj2 (N.eqb_neq _ _) Hb), (proj2 (N.eqb_neq _ _) Hp).
    apply H0. }
  destruct (nextrun =? rune_backslash)%N.
  { destruct (length in1 =? 0); [reflexivity|].
    destruct (utf8.DecodeRune in1) as [r2 w2].
    destruct (negb _); [|reflexivity].
    destruct (slice_from in1 w2) as [in2|e|] eqn:Hs; cbn [bind];
      [apply H0|by apply slice_from_not_Err in Hs|reflexivity]. }
  destruct (nextrun =? rune_lparen)%N; [|apply H0].
  assert (Hr : forall i, regex_named.parseBytes_fuel n i regex_named.rune_rparen
                         = with_earlier_errors (parseBytes_fuel n i))
    by (intros i; apply IH; discriminate).
  destruct (reNamedMatch_FindSubmatchIndex in1) as [m|].
  { cbv zeta. destruct (slice_from _ _) as [in2|e|] eqn:Hs2; cbn [bind];
      [|by apply slice_from_not_Err in Hs2|reflexivity].
    rewrite Hr. by destruct (parseBytes_fuel n _). }
  destruct (reNoCaptureMatch_FindSubmatchIndex in1) as [m|].
  { destruct (slice_from _ _) as [in2|e|] eqn:Hs2; cbn [bind];
      [|by apply slice_from_not_Err in Hs2|reflexivity].
    rewrite Hr. by destruct (parseBytes_fuel n _). }
  cbn [bind]. rewrite Hr. by destruct (parseBytes_fuel n _).
Qed.

Lemma earlier_parseBytes in_ until :
  until <> rune_backslash -> until <> rune_lparen ->
  regex_named.parseBytes in_ until = with_earlier_errors (parseBytes in_).
Proof. intros. by apply earlier_parseBytes_fuel. Qed.

(** The earlier builder returns the table of the current one whenever the
    current one returns a table. *)
Lemma earlier_buildMap_loop k names (r r' : gmap string nat) :
  buildMap_loop k names r = Ok r' ->
  regex_named.buildMap_loop k names r = r'.
Proof.
  revert k r. induction names as [|h t IH]; intros k r;
    cbn [buildMap_loop regex_named.buildMap_loop].
  - by intros [= <-].
  - change regex_named.errorString with UnnamedCapture.
    case_bool_decide; [destruct (r !! h); [discriminate|]|]; apply IH.
Qed.

(** The earlier builder keeps, for each name, its last named entry. *)
Lemma earlier_buildMap_loop_lookup k names (r : gmap string nat) name i :
  regex_named.buildMap_loop k names r !! name = Some i <->
  (exists j, i = k + j + 1 /\ names !! j = Some name /\
     name <> UnnamedCapture /\
     forall j', j < j' -> names !! j' <> Some name) \/
  (r !! name = Some i /\
   (name = UnnamedCapture \/ forall j, names !! j <> Some name)).
Proof.
  revert k r. induction names as [|h t IH]; intros k r;
    cbn [regex_named.buildMap_loop].
  - split.
    + intros Hr. right. split; [assumption|]. right. intros j.
      by rewrite lookup_nil.
    + intros [(j & _ & Hj & _)|[Hr _]]; [|assumption].
      by rewrite lookup_nil in Hj.
  - change regex_named.errorString with UnnamedCapture.
    case_bool_decide as Hh; rewrite IH; clear IH.
    + split.
      * intros [(j & -> & Hj & Hn & Hlast)|[Hr Hor]].
        -- left. exists (S j). split; [lia|]. split; [assumption|].
           split; [assumption|]. intros [|j'] Hlt; [lia|].
           apply Hlast. lia.
        -- destruct (decide (h = name)) as [->|Hne].
           ++ rewrite lookup_insert_eq in Hr. injection Hr as <-.
              destruct Hor as [->|Hnone]; [by destruct Hh|].
              left. exists 0. split; [lia|]. split; [reflexivity|].
              split; [assumption|]. intros [|j'] Hlt; [lia|]. apply Hnone.
           ++ rewrite lookup_insert_ne in Hr by assumption.
              right. split; [assumption|].
              destruct Hor as [->|Hnone]; [by left|]. right.
              intros [|j]; cbn; [congruence|apply Hnone].
      * intros [(j & -> & Hj & Hn & Hlast)|[Hr Hor]].
        -- destruct j as [|j]; cbn in Hj.
           ++ injection Hj as ->. right. split.
              ** rewrite lookup_insert_eq. f_equal. lia.
              ** right. intros j. apply (Hlast (S j)). lia.
           ++ left. exists j. split; [lia|]. split; [assumption|].
              split; [assumption|]. intros j' Hlt. apply (Hlast (S j')). lia.
        -- right. destruct Hor as [->|Hnone].
           ++ split; [|by left]. by rewrite lookup_insert_ne.
           ++ split; [|right; intros j; apply (Hnone (S j))].
              rewrite lookup_insert_ne; [assumption|].
              intros ->. by apply (Hnone 0).
    + split.
      * intros [(j & -> & Hj & Hn & Hlast)|[Hr Hor]].
        -- left. exists (S j). split; [lia|]. split; [assumption|].
           split; [assumption|]. intros [|j'] Hlt; [lia|].
           apply Hlast. lia.
        -- right. split; [assumption|].
           destruct Hor as [->|Hnone]; [by left|].
           destruct (decide (name = UnnamedCapture)) as [->|Hn'];
             [by left|].
           right. intros [|j]; cbn; [congruence|apply Hnone].
      * intros [(j & -> & Hj & Hn & Hlast)|[Hr Hor]].
        -- destruct j as [|j]; cbn in Hj; [congruence|].
           left. exists j. split; [lia|]. split; [assumption|].
           split; [assumption|]. intros j' Hlt. apply (Hlast (S j')). lia.
        -- right. split; [assumption|].
           destruct Hor as [->|Hnone]; [by left|].
           right. intros j. apply (Hnone (S j)).
Qed.

(** ** Lemmas on the construction *)

Lemma has_prefix_question_false rest :
  has_prefix [x3f] rest = false -> head rest <> Some x3f.
Proof.
  destruct rest as [|b rest]; [discriminate|].
  cbn [has_prefix head]. rewrite andb_true_r. intros Hb [= ->].
  discriminate Hb.
Qed.

Lemma scan_and_build_bounds re tbl :
  scan_and_build re = Ok tbl ->
  size tbl <= count_byte x28 (list_byte_of_string re) /\
  map_Forall (fun _ i => 1 <= i <= count_byte x28 (list_byte_of_string re))
    tbl.
Proof.
  unfold scan_and_build.
  destruct (parseBytes (list_byte_of_string re)) as [ds|e|] eqn:Hp;
    cbn [bind]; try discriminate.
  intros Hb. apply parseBytes_count_lparen in Hp.
  destruct (buildMap_table_invariant _ _ Hb) as (Hsize & Hrange & _).
  split.
  - rewrite Hsize. pose proof (length_filter (fun n => n <> UnnamedCapture) ds).
    lia.
  - intros name i Hi. specialize (Hrange _ _ Hi). lia.
Qed.

Lemma Compile_Ok_inv `{Engine} re r :
  Compile re = Ok r ->
  exists c, regexp_Compile re = inl c /\ matcher r = c /\
    scan_and_build re = Ok (namedMap r).
Proof.
  unfold Compile, scan_and_build.
  destruct (regexp_Compile re) as [c|e]; [|discriminate].
  destruct (parseBytes (list_byte_of_string re)) as [ds|e|]; cbn [bind];
    try discriminate.
  destruct (buildMap ds) as [tbl|e|]; cbn [bind]; try discriminate.
  intros [= <-]. eauto.
Qed.

Lemma result_Ok_iff_not_Panic {A} (r : result A) :
  (forall e, r <> Err e) -> (is_Ok r <-> r <> Panic).
Proof.
  intros Hne. destruct r as [a|e|].
  - split; [discriminate|]. intros _. by eexists.
  - by destruct (Hne e).
  - split; [intros [a Ha]; discriminate|]. intros Hn. by destruct Hn.
Qed.

(** ** Slices of a match *)

(** The offsets of a match of [reNamedMatch] lie within the input, where
    the slice expression of Go, bounded by the capacity, returns the bytes
    of [submatch_bytes] whatever the capacity of the input is. *)
Lemma submatch_bytes_slice_range {A} (s sp : list A) lo hi :
  lo <= hi <= length s ->
  exists sp', slice_range {| elems := s; spare := sp |} lo hi
              = Ok {| elems := submatch_bytes s lo hi; spare := sp' |}.
Proof.
  intros Hb. unfold slice_range, submatch_bytes. cbn [elems spare].
  rewrite length_app.
  replace ((lo <=? hi) && (hi <=? length s + length sp)) with true
    by (symmetry; apply andb_true_iff; split; apply Nat.leb_le; lia).
  eexists. f_equal. f_equal.
  rewrite drop_app_le by lia. rewrite take_app_le; [reflexivity|].
  rewrite length_drop. lia.
Qed.

Lemma reNamedMatch_slice input sp m :
  reNamedMatch_FindSubmatchIndex input = Some m ->
  exists sp', slice_range {| elems := input; spare := sp |} (off m 2) (off m 3)
    = Ok {| elems := submatch_bytes input (off m 2) (off m 3);
            spare := sp' |}.
Proof.
  intros (e & -> & He)%reNamedMatch_inv. cbn [off nth].
  apply submatch_bytes_slice_range. lia.
Qed.

(** ** The single-result projection on a raw match that is long enough *)

Lemma mapRe_getResult_spec {R T} (zero : T) (re : RegexpNamed R)
    (m : list T) :
  0 < length m ->
  map_Forall (fun _ i => i < length m) (namedMap re) ->
  exists base mp,
    mapRe zero re (Some m) getResult = Ok (base, Some mp) /\
    m !! 0 = Some base /\
    (forall name i, namedMap re !! name = Some i -> mp !! name = m !! i) /\
    (forall name, namedMap re !! name = None -> mp !! name = None).
Proof.
  intros Hv0 Hv.
  destruct (lookup_lt_is_Some_2 m 0 Hv0) as [base Hbase].
  exists base, (omap (projected m getResult) (namedMap re)).
  split; [|split; [assumption|split]].
  - apply mapRe_Some_Ok; [|by apply getResult_Ok].
    intros k v Hk.
    destruct (lookup_lt_is_Some_2 m v) as [x Hx]; [exact (Hv k v Hk)|].
    exists x. by apply getResult_Ok.
  - intros name i Hn. rewrite lookup_omap, Hn. cbn.
    apply projected_getResult.
  - intros name Hn. by rewrite lookup_omap, Hn.
Qed.

Lemma mapRe_getResultIndex_spec {R T} (re : RegexpNamed R) (m : slice T) :
  2 <= length (elems m ++ spare m) ->
  map_Forall (fun _ i => i * 2 + 2 <= length (elems m ++ spare m))
    (namedMap re) ->
  exists a0 b0 mp,
    mapRe None re (Some m) getResultIndex = Ok (Some [a0; b0], Some mp) /\
    (elems m ++ spare m) !! 0 = Some a0 /\
    (elems m ++ spare m) !! 1 = Some b0 /\
    (forall name i, namedMap re !! name = Some i ->
       exists a b, (elems m ++ spare m) !! (i * 2) = Some a /\
         (elems m ++ spare m) !! (i * 2 + 1) = Some b /\
         mp !! name = Some (Some [a; b])) /\
    (forall name, namedMap re !! name = None -> mp !! name = None).
Proof.
  intros Hi0 Hi.
  destruct (getResultIndex_backing m 0) as (a0 & b0 & Ha0 & Hb0 & H0);
    [lia|]. cbn in Ha0, Hb0.
  exists a0, b0, (omap (projected m getResultIndex) (namedMap re)).
  split; [|split; [assumption|split; [assumption|split]]].
  - apply mapRe_Some_Ok; [|assumption].
    intros k v Hk.
    destruct (getResultIndex_backing m v) as (a & b & _ & _ & Hab);
      [exact (Hi k v Hk)|eauto].
  - intros name i Hn.
    destruct (getResultIndex_backing m i) as (a & b & Ha & Hb & Hab);
      [exact (Hi name i Hn)|].
    exists a, b. split; [assumption|]. split; [assumption|].
    rewrite lookup_omap, Hn. cbn. unfold projected. by rewrite Hab.
  - intros name Hn. by rewrite lookup_omap, Hn.
Qed.

(** ** The repeated-result projection, position by position *)

Lemma mapReAll_pointwise {R M S} (zero : S) (re : RegexpNamed R)
    (raw : list (option M)) (f : M -> nat -> result S) :
  pointwise_projection zero re raw f (mapReAll zero re raw f).
Proof.
  split.
  - intros bases maps Hall.
    apply mapReAll_Ok in Hall as (rs & Hrs & [= -> ->]).
    rewrite !length_fmap. pose proof (Forall2_length _ _ _ Hrs) as Hlen.
    split; [lia|]. split; [lia|].
    intros j m Hj.
    destruct (Forall2_lookup_l _ _ _ _ _ Hrs Hj) as ([base mp] & Hr & Hm).
    exists base, mp. rewrite !list_lookup_fmap, Hr. auto.
  - split; [|apply mapReAll_total].
    intros [out Hout]. apply mapReAll_Ok in Hout as (rs & Hrs & _).
    induction Hrs; constructor; [by eexists|assumption].
Qed.

(** ** An escaped ASCII character *)

Lemma parseBytes_escaped_ascii c rest :
  (Byte.to_N c <? 0x80)%N = true ->
  parseBytes (x5c :: c :: rest) = parseBytes rest.
Proof.
  intros Hc. apply N.ltb_lt in Hc.
  rewrite parseBytes_at_backslash. cbn [length Nat.eqb].
  rewrite utf8_facts.DecodeRune_ascii by assumption.
  replace (Byte.to_N c =? utf8.RuneError)%N with false
    by (symmetry; apply N.eqb_neq; unfold utf8.RuneError; lia).
  reflexivity.
Qed.

(** * The claims of the specification *)

(** C1 (the code departs from the claim). The claim: the index stored for
    each name is the 1-based ordinal of its group among the capturing
    groups, as the engine numbers them. After the marker [?:] the scanner
    resumes at [input[m[1]+1:]], one byte beyond the marker, and that byte,
    whatever it is, is never scanned. In [(?:(a))(?P<x>b)] the skipped byte
    is the opening parenthesis of the capturing group [(a)]: the scanner
    sees one group only and stores [x -> 1], where [x] is the second
    capturing group. The same pattern with one more byte after the marker,
    [(?:a(a))(?P<x>b)], gives [x -> 2]. With the raw match
    [["ab"; "a"; "b"]] of the subject ["ab"] the projection then returns
    the text of [(a)] under the name [x]. *)
Theorem C1_noncapturing_marker_skips_a_group :
  (forall b rest,
     parseBytes (list_byte_of_string "(?:" ++ b :: rest) = parseBytes rest) /\
  parseBytes (list_byte_of_string "(?:(a))(?P<x>b)") = Ok ["x"%string] /\
  scan_and_build "(?:(a))(?P<x>b)" = Ok {[ "x"%string := 1 ]} /\
  scan_and_build "(?:a(a))(?P<x>b)" = Ok {[ "x"%string := 2 ]} /\
  mapRe EmptyString {| namedMap := {[ "x"%string := 1 ]}; matcher := tt |}
    (Some ["ab"; "a"; "b"]%string) getResult
  = Ok ("ab"%string, Some {[ "x"%string := "a"%string ]}).
Proof.
  split; [exact parseBytes_at_noncapturing_marker|].
  repeat split; vm_compute; reflexivity.
Qed.

(** C2 (the code departs from the claim). The claim: no name-aware search
    fails, every table index being within the raw match. In
    [(?:\()(?P<x>a)] the byte skipped after [?:] is the backslash, so the
    scanner reads the escaped parenthesis as an unnamed group and stores
    [x -> 2]; the engine has one capturing group and its raw match of the
    subject ["(a"] is [["(a"; "a"]], so the projection indexes element 2 of a
    two-element match and panics. The flag group of [(?i)(?P<x>a)], which
    the engine does not number either, gives the same table. *)
Theorem C2_projection_panics_out_of_range :
  parseBytes (list_byte_of_string "(?:\()(?P<x>a)")
  = Ok [UnnamedCapture; "x"%string] /\
  scan_and_build "(?:\()(?P<x>a)" = Ok {[ "x"%string := 2 ]} /\
  scan_and_build "(?i)(?P<x>a)" = Ok {[ "x"%string := 2 ]} /\
  mapRe EmptyString {| namedMap := {[ "x"%string := 2 ]}; matcher := tt |}
    (Some ["(a"; "a"]%string) getResult
  = Panic.
Proof. repeat split; vm_compute; reflexivity. Qed.

(** C3. [Compile] returns an error exactly when the engine's compilation of
    the pattern fails or the scanner followed by the table builder fails,
    and the error is the one of the stage that failed (the engine's when
    the engine fails); it returns a [RegexpNamed], holding the engine's
    compiled matcher and the name table, exactly when both stages succeed.
    The scanner accepts the unbalanced pattern [(?P<name>\w+) (?P<age>\d+],
    so that the failure of [Compile] on it is the engine's error. (The one
    other outcome of [Compile] is the panic of the scanner, which the
    engine's success lets through.) *)
Theorem C3_Compile_fails_iff_a_stage_fails `{Engine} (re : string) :
  (is_Err (Compile re) <->
     (exists e, regexp_Compile re = inr e) \/ is_Err (scan_and_build re)) /\
  (forall e, regexp_Compile re = inr e -> Compile re = Err e) /\
  (forall c e, regexp_Compile re = inl c -> scan_and_build re = Err e ->
     Compile re = Err e) /\
  (is_Ok (Compile re) <->
     (exists c, regexp_Compile re = inl c) /\ is_Ok (scan_and_build re)) /\
  (forall c tbl, regexp_Compile re = inl c -> scan_and_build re = Ok tbl ->
     Compile re = Ok {| namedMap := tbl; matcher := c |}) /\
  (Compile re = Panic <->
     (exists c, regexp_Compile re = inl c) /\ scan_and_build re = Panic) /\
  scan_and_build pat_unbalanced
    = Ok {[ "name"%string := 1; "age"%string := 2 ]} /\
  (forall e, regexp_Compile pat_unbalanced = inr e ->
     Compile pat_unbalanced = Err e).
Proof.
  split; [|split; [|split; [|split; [|split; [|split; [|split]]]]]].
  - destruct (regexp_Compile re) as [c|e] eqn:Hc.
    + rewrite (Compile_engine_ok _ _ Hc). unfold is_Err.
      destruct (scan_and_build re); cbn [bind]; split.
      all: try (intros [e' He']; discriminate).
      all: try (intros [[e' He']|[e' He']]; discriminate).
      all: eauto.
    + rewrite (Compile_engine_error _ _ Hc). unfold is_Err. split; eauto.
  - apply Compile_engine_error.
  - intros c e Hc Hs. rewrite (Compile_engine_ok _ _ Hc), Hs. reflexivity.
  - destruct (regexp_Compile re) as [c|e] eqn:Hc.
    + rewrite (Compile_engine_ok _ _ Hc). unfold is_Ok.
      destruct (scan_and_build re); cbn [bind]; split.
      all: try (intros [a Ha]; discriminate).
      all: try (intros [_ [a Ha]]; discriminate).
      all: eauto.
    + rewrite (Compile_engine_error _ _ Hc). unfold is_Ok. split.
      * intros [a Ha]. discriminate.
      * intros [[c Hc'] _]. discriminate.
  - intros c tbl Hc Hs. rewrite (Compile_engine_ok _ _ Hc), Hs. reflexivity.
  - destruct (regexp_Compile re) as [c|e] eqn:Hc.
    + rewrite (Compile_engine_ok _ _ Hc).
      destruct (scan_and_build re); cbn [bind]; split;
        try discriminate; try (intros [_ ?]; discriminate); eauto.
    + rewrite (Compile_engine_error _ _ Hc). split; [discriminate|].
      intros [[c Hc'] _]. discriminate.
  - vm_compute. reflexivity.
  - apply Compile_engine_error.
Qed.

Lemma C3_witness :
  @regexp_Compile test_engine pat_unbalanced
    = inr (syntax_Error "missing closing )" pat_unbalanced) /\
  @Compile test_engine pat_unbalanced
    = Err (syntax_Error "missing closing )" pat_unbalanced) /\
  @Compile test_engine pat_name_age
    = Ok {| namedMap := {[ "name"%string := 1; "age"%string := 2 ]};
            matcher := pat_name_age |}.
Proof.
  split; [reflexivity|]. split.
  - apply (@C3_Compile_fails_iff_a_stage_fails test_engine pat_unbalanced).
    reflexivity.
  - apply (@C3_Compile_fails_iff_a_stage_fails test_engine pat_name_age);
      vm_compute; reflexivity.
Defined.

(** C4, as the claim states it, fails: the error of [buildMap] is one fixed
    value, the same for every duplicated name, so that no function of the
    error gives back the name. *)
Lemma C4_error_does_not_identify_the_name :
  buildMap ["a"; "a"]%string = Err errDuplicateNamedGroup /\
  buildMap ["b"; "b"]%string = Err errDuplicateNamedGroup /\
  ~ exists ident : error -> string,
      forall names name i j,
        i < j -> names !! i = Some name -> names !! j = Some name ->
        name <> UnnamedCapture ->
        exists e, buildMap names = Err e /\ ident e = name.
Proof.
  split; [reflexivity|]. split; [reflexivity|].
  intros [ident Hident].
  destruct (Hident ["a"; "a"]%string "a"%string 0 1) as (ea & Ha & Hia);
    [lia|reflexivity|reflexivity|discriminate|].
  destruct (Hident ["b"; "b"]%string "b"%string 0 1) as (eb & Hb & Hib);
    [lia|reflexivity|reflexivity|discriminate|].
  vm_compute in Ha, Hb. injection Ha as <-. injection Hb as <-.
  rewrite Hia in Hib. discriminate.
Qed.

(** C4 (amended). For every descriptor sequence in which a name occurs on
    two distinct named descriptors, [buildMap] fails with the
    duplicate-named-group error, a fixed value that does not carry the
    name; the failure is decided at the second of the two descriptors,
    whatever follows it. The scanner turns [(?P<name>\w+) (?P<name>\d+)]
    into such a sequence, and [Compile] fails on it with this error
    whenever the engine accepts the pattern. *)
Theorem C4_duplicate_name_is_rejected (names : list string) (name : string)
    (i j : nat) (Hij : i < j)
    (Hi : names !! i = Some name) (Hj : names !! j = Some name)
    (Hnamed : name <> UnnamedCapture) :
  buildMap names = Err errDuplicateNamedGroup /\
  (forall rest, buildMap (take (S j) names ++ rest)
                = Err errDuplicateNamedGroup) /\
  parseBytes (list_byte_of_string pat_duplicate)
    = Ok ["name"; "name"]%string /\
  scan_and_build pat_duplicate = Err errDuplicateNamedGroup /\
  (forall (E : Engine) c, regexp_Compile pat_duplicate = inl c ->
     Compile pat_duplicate = Err errDuplicateNamedGroup).
Proof.
  split; [|split; [|split; [|split]]].
  - by apply (buildMap_loop_duplicate _ _ _ i j name).
  - intros rest. apply (buildMap_loop_duplicate _ _ _ i j name);
      [assumption| | |assumption].
    + rewrite lookup_app_l by (rewrite length_take;
        apply lookup_lt_Some in Hj; lia).
      rewrite lookup_take_lt by lia. assumption.
    + rewrite lookup_app_l by (rewrite length_take;
        apply lookup_lt_Some in Hj; lia).
      rewrite lookup_take_lt by lia. assumption.
  - vm_compute. reflexivity.
  - vm_compute. reflexivity.
  - intros E c Hc. rewrite (Compile_engine_ok _ _ Hc).
    replace (scan_and_build pat_duplicate) with
      (@Err (gmap string nat) errDuplicateNamedGroup)
      by (vm_compute; reflexivity).
    reflexivity.
Qed.

Lemma C4_witness :
  buildMap ["name"; "name"]%string = Err errDuplicateNamedGroup /\
  @Compile test_engine pat_duplicate = Err errDuplicateNamedGroup.
Proof.
  pose proof (C4_duplicate_name_is_rejected ["name"; "name"]%string
                "name"%string 0 1 ltac:(lia) eq_refl eq_refl
                ltac:(discriminate)) as (Hb & _ & _ & _ & Hc).
  split; [exact Hb|]. apply (Hc test_engine pat_duplicate). reflexivity.
Defined.

(** C5 (the code departs from the claim). The claim: the scanner, and with
    it [Compile], rejects every pattern that ends with an unterminated
    escape marker with the trailing-backslash error, and skips whole the
    character that follows an escape marker. The scanner does reject [\],
    and [\Q(\], where the final backslash follows an opening parenthesis.
    But after the marker [?:] it resumes one byte beyond the marker (the
    defect of C1 and C2), so that the final backslash of [(?:\] and of
    [\Q(?:\] is never scanned: the scanner accepts both patterns, and
    [Compile] returns a value for [\Q(?:\] whenever the engine accepts it,
    as Go's does. And after an escape marker the valid character U+FFFD is
    rejected, where another three-byte character is skipped (the defect of
    C6). *)
Theorem C5_unterminated_escape_is_accepted :
  parseBytes (list_byte_of_string "\") = Err errTrailingBackslash /\
  parseBytes (list_byte_of_string "\Q(\") = Err errTrailingBackslash /\
  parseBytes (list_byte_of_string "(?:\") = Ok [] /\
  parseBytes (list_byte_of_string pat_quoted_marker) = Ok [] /\
  scan_and_build pat_quoted_marker = Ok ∅ /\
  (forall (E : Engine) c, regexp_Compile pat_quoted_marker = inl c ->
     Compile pat_quoted_marker = Ok {| namedMap := ∅; matcher := c |}) /\
  parseBytes [x5c; xe2; x82; xac] = Ok [] /\
  parseBytes [x5c; xef; xbf; xbd] = Err errIncorrectRune.
Proof.
  repeat apply conj; try (vm_compute; reflexivity).
  intros E c Hc. rewrite (Compile_engine_ok _ _ Hc).
  reflexivity.
Qed.

(** C6 (the code departs from the claim). The claim: the
    incorrect-rune error is raised exactly when the bytes after an escape
    marker are not a valid encoding. The scanner compares the decoded rune
    with [utf8.RuneError] and does not look at the width, so the valid
    three-byte encoding [EF BF BD] of U+FFFD, which [DecodeRune] decodes
    with width 3, is rejected after a backslash as if it were invalid,
    where another valid three-byte character (U+20AC) is skipped. The
    pattern [\Q\] U+FFFD [\E] brings that input to the scanner. *)
Theorem C6_valid_replacement_char_is_rejected :
  utf8.DecodeRune [xef; xbf; xbd] = (utf8.RuneError, 3) /\
  parseBytes [x5c; xef; xbf; xbd] = Err errIncorrectRune /\
  parseBytes [x5c; xe2; x82; xac] = Ok [] /\
  utf8.DecodeRune [xff] = (utf8.RuneError, 1) /\
  parseBytes [x5c; xff] = Err errIncorrectRune /\
  scan_and_build
    (string_of_list_byte
       (list_byte_of_string "\Q\" ++ [xef; xbf; xbd]
        ++ list_byte_of_string "\E"))
  = Err errIncorrectRune.
Proof. repeat split; vm_compute; reflexivity. Qed.



(** C8 (the code departs from the claim). The claim: for every compiled
    [RegexpNamed] and every raw match, the single-result projection returns
    element 0 of the raw match as the base and maps each name, of table
    index [i], to element [i] in value form and to the pair of offsets at
    [2i], [2i + 1] in index-pair form. For the pattern [(?:\()(?P<x>a)]
    [Compile] returns the table [x -> 2], the byte skipped after [?:]
    being the backslash (the defect of C1 and C2), where the engine has one
    capturing group. On the engine's raw match of the subject [(a], which
    has two elements, [FindStringNamed] and [FindNamed] index element 2 and
    panic, where the claim gives the base [(a] and [x -> a]. The
    index-pair forms re-slice the four offsets at [4:6]: they panic when
    the capacity of the raw match is less than 6, and otherwise return
    under [x] the two numbers that the backing array holds after the raw
    match, where the claim gives the pair (1, 2). *)
Theorem C8_projection_fails_on_a_compiled_pattern `{Engine} (c : Regexp)
    (sp : list Z)
    (Hc : regexp_Compile pat_escaped_paren = inl c)
    (Hs : FindStringSubmatch c "(a" = Some ["(a"; "a"]%string)
    (Hb : FindSubmatch c (list_byte_of_string "(a")
          = Some [Some (list_byte_of_string "(a");
                  Some (list_byte_of_string "a")])
    (Hsi : FindStringSubmatchIndex c "(a"
           = Some {| elems := [0; 2; 1; 2]%Z; spare := sp |})
    (Hbi : FindSubmatchIndex c (list_byte_of_string "(a")
           = Some {| elems := [0; 2; 1; 2]%Z; spare := sp |}) :
  exists r,
    Compile pat_escaped_paren = Ok r /\
    r = {| namedMap := {[ "x"%string := 2 ]}; matcher := c |} /\
    FindStringNamed r "(a" = Panic /\
    FindNamed r (list_byte_of_string "(a") = Panic /\
    (length sp < 2 ->
     FindStringIndexNamed r "(a" = Panic /\
     FindIndexNamed r (list_byte_of_string "(a") = Panic) /\
    (forall a b sp', sp = a :: b :: sp' ->
       FindStringIndexNamed r "(a"
       = Ok (Some [0; 2]%Z, Some {[ "x"%string := Some [a; b] ]}) /\
       FindIndexNamed r (list_byte_of_string "(a")
       = Ok (Some [0; 2]%Z, Some {[ "x"%string := Some [a; b] ]})).
Proof.
  exists {| namedMap := {[ "x"%string := 2 ]}; matcher := c |}.
  split; [by rewrite (Compile_engine_ok _ _ Hc)|]. split; [reflexivity|].
  unfold FindStringNamed, FindNamed, FindStringIndexNamed, FindIndexNamed.
  cbn [matcher]. rewrite Hs, Hb, Hsi, Hbi.
  split; [vm_compute; reflexivity|]. split; [vm_compute; reflexivity|].
  split.
  - intros Hlen. destruct sp as [|a [|b sp']]; [| |cbn in Hlen; lia];
      split; vm_compute; reflexivity.
  - intros a b sp' ->. split; vm_compute; reflexivity.
Qed.

Lemma C8_witness :
  exists r,
    @Compile test_engine pat_escaped_paren = Ok r /\
    r = {| namedMap := {[ "x"%string := 2 ]}; matcher := pat_escaped_paren |} /\
    @FindStringNamed test_engine r "(a" = Panic /\
    @FindNamed test_engine r (list_byte_of_string "(a") = Panic /\
    (length (@nil Z) < 2 ->
     @FindStringIndexNamed test_engine r "(a" = Panic /\
     @FindIndexNamed test_engine r (list_byte_of_string "(a") = Panic) /\
    (forall a b sp', [] = a :: b :: sp' ->
       @FindStringIndexNamed test_engine r "(a"
       = Ok (Some [0; 2]%Z, Some {[ "x"%string := Some [a; b] ]}) /\
       @FindIndexNamed test_engine r (list_byte_of_string "(a")
       = Ok (Some [0; 2]%Z, Some {[ "x"%string := Some [a; b] ]})).
Proof.
  apply (@C8_projection_fails_on_a_compiled_pattern test_engine
           pat_escaped_paren []); vm_compute; reflexivity.
Defined.

(** C9 (the code departs from the claim). The claim: for every compiled
    [RegexpNamed] and every sequence of raw matches that the engine
    returns, the [FindAll] operations return a sequence of bases and a
    sequence of mappings, each of the length of the raw sequence, whose
    entries at each position are the single-result projection of the raw
    match there. For the pattern [(?:\()(?P<x>a)], for which [Compile]
    returns the table [x -> 2] (the defect of C1 and C2), the engine
    returns one raw match over the subject [(a], of two elements: the
    value forms [FindAllStringNamed] and [FindAllNamed] index its element
    2 and panic, and return no sequence at all; the index-pair forms panic
    too when the capacity of the raw match is less than 6. *)
Theorem C9_repeated_projection_fails_on_a_compiled_pattern `{Engine}
    (c : Regexp) (n : Z) (sp : list Z)
    (Hc : regexp_Compile pat_escaped_paren = inl c)
    (Hs : FindAllStringSubmatch c "(a" n = [Some ["(a"; "a"]%string])
    (Hb : FindAllSubmatch c (list_byte_of_string "(a") n
          = [Some [Some (list_byte_of_string "(a");
                   Some (list_byte_of_string "a")]])
    (Hsi : FindAllStringSubmatchIndex c "(a" n
           = [Some {| elems := [0; 2; 1; 2]%Z; spare := sp |}])
    (Hbi : FindAllSubmatchIndex c (list_byte_of_string "(a") n
           = [Some {| elems := [0; 2; 1; 2]%Z; spare := sp |}]) :
  exists r,
    Compile pat_escaped_paren = Ok r /\
    r = {| namedMap := {[ "x"%string := 2 ]}; matcher := c |} /\
    FindAllStringNamed r "(a" n = Panic /\
    FindAllNamed r (list_byte_of_string "(a") n = Panic /\
    (length sp < 2 ->
     FindAllStringIndexNamed r "(a" n = Panic /\
     FindAllIndexNamed r (list_byte_of_string "(a") n = Panic).
Proof.
  exists {| namedMap := {[ "x"%string := 2 ]}; matcher := c |}.
  split; [by rewrite (Compile_engine_ok _ _ Hc)|]. split; [reflexivity|].
  unfold FindAllStringNamed, FindAllNamed, FindAllStringIndexNamed,
    FindAllIndexNamed.
  cbn [matcher]. rewrite Hs, Hb, Hsi, Hbi.
  split; [vm_compute; reflexivity|]. split; [vm_compute; reflexivity|].
  intros Hlen. destruct sp as [|a [|b sp']]; [| |cbn in Hlen; lia];
    split; vm_compute; reflexivity.
Qed.

Lemma C9_witness :
  exists r,
    @Compile test_engine pat_escaped_paren = Ok r /\
    r = {| namedMap := {[ "x"%string := 2 ]}; matcher := pat_escaped_paren |} /\
    @FindAllStringNamed test_engine r "(a" (-1) = Panic /\
    @FindAllNamed test_engine r (list_byte_of_string "(a") (-1) = Panic /\
    (length (@nil Z) < 2 ->
     @FindAllStringIndexNamed test_engine r "(a" (-1) = Panic /\
     @FindAllIndexNamed test_engine r (list_byte_of_string "(a") (-1)
     = Panic).
Proof.
  apply (@C9_repeated_projection_fails_on_a_compiled_pattern test_engine
           pat_escaped_paren (-1) []); vm_compute; reflexivity.
Defined.

(** C10. A group named by the replacement character U+FFFD is taken for an
    unnamed group: the scanner's descriptor for [(?P<] U+FFFD [>a)] is the
    sentinel [UnnamedCapture], the very descriptor of the unnamed group
    [(a)], because the sentinel is the string U+FFFD; the name is then left
    out of the table, and two groups of that name raise no duplicate-name
    error, where two groups named [n] do. *)
Theorem C10_replacement_char_name_is_unnamed :
  exists name : list byte,
    string_of_list_byte name = UnnamedCapture /\
    utf8.DecodeRune name = (0xFFFD%N, 3) /\
    let pat := list_byte_of_string "(?P<" ++ name ++ list_byte_of_string ">a)" in
    parseBytes pat = Ok [UnnamedCapture] /\
    parseBytes (list_byte_of_string "(a)") = Ok [UnnamedCapture] /\
    scan_and_build (string_of_list_byte pat) = Ok ∅ /\
    parseBytes (pat ++ pat) = Ok [UnnamedCapture; UnnamedCapture] /\
    scan_and_build (string_of_list_byte (pat ++ pat)) = Ok ∅ /\
    scan_and_build "(?P<n>a)(?P<n>a)" = Err errDuplicateNamedGroup.
Proof.
  exists [xef; xbf; xbd]. repeat split; vm_compute; reflexivity.
Qed.

(** * Further properties of the package *)

(** ** The scanner *)

(** X1. The scanner fails with one of its two errors only, the
    trailing-backslash error or the incorrect-rune error, and only on a
    pattern that holds a backslash byte. *)
Theorem X1_scanner_fails_only_at_a_backslash (input : list byte) (e : error) :
  parseBytes input = Err e ->
  (e = errTrailingBackslash \/ e = errIncorrectRune) /\
  0 < count_byte x5c input.
Proof.
  intros He. split; [by eapply parseBytes_Err_inv|].
  destruct (count_byte x5c input) eqn:Hc; [|lia].
  by destruct (parseBytes_no_backslash input e Hc).
Qed.

Lemma X1_witness :
  (errIncorrectRune = errTrailingBackslash \/
   errIncorrectRune = errIncorrectRune) /\
  0 < count_byte x5c [x5c; xff].
Proof.
  apply (X1_scanner_fails_only_at_a_backslash [x5c; xff] errIncorrectRune).
  vm_compute. reflexivity.
Defined.

(** X2. The scanner panics only on a pattern whose last three bytes are
    [(?:], where the slice after the marker is out of range; the scanner
    followed by the builder, and [Compile], panic on no other pattern. *)
Theorem X2_panic_only_at_a_final_marker `{Engine} (re : string) :
  parseBytes (list_byte_of_string re) = Panic \/
  scan_and_build re = Panic \/ Compile re = Panic ->
  exists p, list_byte_of_string re = p ++ list_byte_of_string "(?:".
Proof.
  assert (Hsb : scan_and_build re = Panic ->
                parseBytes (list_byte_of_string re) = Panic).
  { unfold scan_and_build.
    destruct (parseBytes (list_byte_of_string re)) as [ds|e|]; cbn [bind];
      try done.
    intros Hb. by destruct (buildMap_never_panics ds). }
  intros [Hp|[Hs|Hc]]; apply parseBytes_Panic_suffix; [assumption|auto|].
  apply Hsb. unfold Compile in Hc.
  destruct (regexp_Compile re) as [c|e]; [|discriminate].
  unfold scan_and_build.
  destruct (parseBytes (list_byte_of_string re)) as [ds|e|]; cbn [bind] in *;
    try done.
  destruct (buildMap ds) as [tbl|e|]; cbn [bind] in *; done.
Qed.

Lemma X2_witness :
  exists p, list_byte_of_string "\Q(?:" = p ++ list_byte_of_string "(?:".
Proof.
  apply (@X2_panic_only_at_a_final_marker test_engine "\Q(?:").
  left. vm_compute. reflexivity.
Defined.

(** X3. The scanner returns at most one descriptor for each
    opening-parenthesis byte of the pattern. *)
Theorem X3_at_most_one_descriptor_per_parenthesis (input : list byte)
    (ds : list string) :
  parseBytes input = Ok ds -> length ds <= count_byte x28 input.
Proof. apply parseBytes_count_lparen. Qed.

Lemma X3_witness :
  length ["name"; "age"]%string
  <= count_byte x28 (list_byte_of_string pat_name_age).
Proof.
  apply (X3_at_most_one_descriptor_per_parenthesis
           (list_byte_of_string pat_name_age)).
  vm_compute. reflexivity.
Defined.

(** X4. Bytes other than the backslash and the opening parenthesis are
    skipped by the scanner, whether or not they are valid UTF-8: in front
    of an input that is empty or starts with an ASCII byte they change
    nothing of what the scanner returns; alone, they give no descriptor. *)
Theorem X4_scanner_skips_plain_bytes (text rest : list byte) :
  count_byte x5c text = 0 -> count_byte x28 text = 0 ->
  starts_ascii_or_empty rest = true ->
  parseBytes (text ++ rest) = parseBytes rest /\ parseBytes text = Ok [].
Proof.
  intros Hb Hp Hr. split; [by apply parseBytes_skip_plain|].
  rewrite <- (app_nil_r text). by rewrite parseBytes_skip_plain.
Qed.

Lemma X4_witness :
  parseBytes ([x61; xe2; x82] ++ list_byte_of_string "(?P<n>b)")
  = parseBytes (list_byte_of_string "(?P<n>b)") /\
  parseBytes [x61; xe2; x82] = Ok [].
Proof.
  apply (X4_scanner_skips_plain_bytes [x61; xe2; x82]
           (list_byte_of_string "(?P<n>b)")); reflexivity.
Defined.

(** X5. At an opening parenthesis followed by [?P<], a name that holds
    neither [>] nor a newline, and [>], the scanner puts that name in front
    of the descriptors of what follows the [>]. *)
Theorem X5_named_group_yields_its_name (name rest : list byte) :
  count_byte x3e name = 0 -> count_byte x0a name = 0 ->
  parseBytes (list_byte_of_string "(?P<" ++ name ++ x3e :: rest)
  = (rec <-! parseBytes rest; Ok (string_of_list_byte name :: rec)).
Proof. apply parseBytes_at_named_marker. Qed.

Lemma X5_witness :
  parseBytes (list_byte_of_string "(?P<" ++ list_byte_of_string "age"
              ++ x3e :: list_byte_of_string "\d+)")
  = (rec <-! parseBytes (list_byte_of_string "\d+)");
     Ok (string_of_list_byte (list_byte_of_string "age") :: rec)).
Proof.
  apply (X5_named_group_yields_its_name (list_byte_of_string "age")
           (list_byte_of_string "\d+)")); reflexivity.
Defined.

(** X6. At an opening parenthesis that is not followed by a question mark
    the scanner puts the descriptor of an unnamed group in front of the
    descriptors of what follows the parenthesis. *)
Theorem X6_plain_group_is_unnamed (rest : list byte) :
  has_prefix [x3f] rest = false ->
  parseBytes (x28 :: rest)
  = (rec <-! parseBytes rest; Ok (UnnamedCapture :: rec)).
Proof.
  intros Hq. by apply parseBytes_at_plain_lparen, has_prefix_question_false.
Qed.

Lemma X6_witness :
  parseBytes (x28 :: list_byte_of_string "a)(b)")
  = (rec <-! parseBytes (list_byte_of_string "a)(b)");
     Ok (UnnamedCapture :: rec)).
Proof.
  apply (X6_plain_group_is_unnamed (list_byte_of_string "a)(b)")).
  reflexivity.
Defined.

(** ** The table builder *)

(** X7. The builder returns a table exactly when no name occurs twice
    among the descriptors of named groups, and otherwise returns the
    duplicate-name error: it has no other outcome. *)
Theorem X7_builder_fails_exactly_on_a_repeated_name (names : list string) :
  (is_Ok (buildMap names) <->
   NoDup (filter (fun n => n <> UnnamedCapture) names)) /\
  (is_Ok (buildMap names) \/ buildMap names = Err errDuplicateNamedGroup).
Proof.
  split; [|apply buildMap_loop_outcome].
  unfold buildMap. rewrite buildMap_loop_Ok_iff. split; [by intros [? _]|].
  intros Hnd. split; [assumption|]. intros n _. apply lookup_empty.
Qed.

(** X8. In the table that the builder returns, a name has index [i]
    exactly when it is the descriptor at position [i - 1] and is not the
    descriptor of an unnamed group; the table has one entry for each
    descriptor of a named group, and no two names have the same index. *)
Theorem X8_builder_table (names : list string) (r : gmap string nat) :
  buildMap names = Ok r ->
  (forall name i,
     r !! name = Some i <->
     exists j, i = j + 1 /\ names !! j = Some name /\
       name <> UnnamedCapture) /\
  size r = length (filter (fun n => n <> UnnamedCapture) names) /\
  (forall n1 n2 i, r !! n1 = Some i -> r !! n2 = Some i -> n1 = n2).
Proof.
  intros Hb. split; [by apply buildMap_Ok|].
  destruct (buildMap_table_invariant _ _ Hb) as (Hs & _ & Hinj). auto.
Qed.

Lemma X8_witness :
  (forall name i,
     ({[ "name"%string := 1; "age"%string := 3 ]} : gmap string nat)
       !! name = Some i <->
     exists j, i = j + 1 /\
       ["name"%string; UnnamedCapture; "age"%string] !! j = Some name /\
       name <> UnnamedCapture) /\
  size ({[ "name"%string := 1; "age"%string := 3 ]} : gmap string nat)
  = length (filter (fun n => n <> UnnamedCapture)
              ["name"%string; UnnamedCapture; "age"%string]) /\
  (forall n1 n2 i,
     ({[ "name"%string := 1; "age"%string := 3 ]} : gmap string nat)
       !! n1 = Some i ->
     ({[ "name"%string := 1; "age"%string := 3 ]} : gmap string nat)
       !! n2 = Some i -> n1 = n2).
Proof.
  apply (X8_builder_table ["name"%string; UnnamedCapture; "age"%string]).
  vm_compute. reflexivity.
Defined.

(** X9. Descriptors of unnamed groups in front of a list of descriptors
    shift every index of its table by their number, and change nothing
    else of what the builder returns. *)
Theorem X9_unnamed_groups_shift_the_indices (n : nat) (names : list string) :
  buildMap (replicate n UnnamedCapture ++ names)
  = shift_result n (buildMap names).
Proof.
  unfold buildMap. rewrite buildMap_loop_skip_unnamed.
  rewrite <- buildMap_loop_shift. by rewrite fmap_empty.
Qed.

(** ** [Compile] and [MustCompile] *)

(** X10. In the value that [Compile] returns, the table has at most as
    many names as the pattern has opening-parenthesis bytes, and every
    index is at least 1 and at most that number. *)
Theorem X10_table_indices_are_bounded `{Engine} (re : string)
    (r : RegexpNamed Regexp) :
  Compile re = Ok r ->
  size (namedMap r) <= count_byte x28 (list_byte_of_string re) /\
  map_Forall (fun _ i => 1 <= i <= count_byte x28 (list_byte_of_string re))
    (namedMap r).
Proof.
  intros (c & _ & _ & Hs)%Compile_Ok_inv. by apply scan_and_build_bounds.
Qed.

Lemma X10_witness :
  size ({[ "name"%string := 1; "age"%string := 2 ]} : gmap string nat)
  <= count_byte x28 (list_byte_of_string pat_name_age) /\
  map_Forall
    (fun _ i => 1 <= i <= count_byte x28 (list_byte_of_string pat_name_age))
    ({[ "name"%string := 1; "age"%string := 2 ]} : gmap string nat).
Proof.
  assert (Hc : @Compile test_engine pat_name_age
               = Ok {| namedMap := {[ "name"%string := 1; "age"%string := 2 ]};
                       matcher := pat_name_age |})
    by (vm_compute; reflexivity).
  exact (@X10_table_indices_are_bounded test_engine pat_name_age _ Hc).
Defined.


(** ** The projection layer *)

(** X12. On a match, the value form of the single-result projection never
    returns an error; it panics exactly when the raw match is empty or
    some index of the table is not below its length, and returns
    otherwise. *)
Theorem X12_value_projection_outcomes {R T} (zero : T) (re : RegexpNamed R)
    (m : list T) :
  (forall e, mapRe zero re (Some m) getResult <> Err e) /\
  (mapRe zero re (Some m) getResult = Panic <->
     m = [] \/
     exists name i, namedMap re !! name = Some i /\ length m <= i) /\
  (is_Ok (mapRe zero re (Some m) getResult) <->
     0 < length m /\ map_Forall (fun _ i => i < length m) (namedMap re)).
Proof.
  destruct (mapRe_Panic_iff zero re m getResult) as [Hne Hp];
    [intros v e; apply getResult_not_Err|].
  assert (Hp' : mapRe zero re (Some m) getResult = Panic <->
     m = [] \/
     exists name i, namedMap re !! name = Some i /\ length m <= i).
  { rewrite Hp, getResult_Panic. split.
    - intros [H0|(name & i & Hn & Hi)].
      + left. destruct m; [reflexivity|cbn in H0; lia].
      + right. exists name, i. by rewrite <- getResult_Panic.
    - intros [->|(name & i & Hn & Hi)]; [left; cbn; lia|].
      right. exists name, i. by rewrite getResult_Panic. }
  split; [exact Hne|]. split; [exact Hp'|].
  rewrite (result_Ok_iff_not_Panic _ Hne), Hp'. split.
  - intros Hnot. split.
    + destruct m; [destruct Hnot; by left|cbn; lia].
    + intros name i Hn. cbn.
      destruct (Nat.lt_ge_cases i (length m)) as [|Hge]; [assumption|].
      destruct Hnot. right. eauto.
  - intros [H0 Hall] [->|(name & i & Hn & Hi)]; [cbn in H0; lia|].
    specialize (Hall _ _ Hn). cbn in Hall. lia.
Qed.

(** X13. On a match, the index-pair form of the single-result projection
    never returns an error; it panics exactly when the capacity of the raw
    match, and not its length, is less than 2 or less than [2i + 2] for
    some index [i] of the table, and returns otherwise. *)
Theorem X13_index_projection_outcomes {R T} (re : RegexpNamed R)
    (m : slice T) :
  (forall e, mapRe None re (Some m) getResultIndex <> Err e) /\
  (mapRe None re (Some m) getResultIndex = Panic <->
     length (elems m) + length (spare m) < 2 \/
     exists name i, namedMap re !! name = Some i /\
       length (elems m) + length (spare m) < i * 2 + 2) /\
  (is_Ok (mapRe None re (Some m) getResultIndex) <->
     2 <= length (elems m) + length (spare m) /\
     map_Forall (fun _ i => i * 2 + 2 <= length (elems m) + length (spare m))
       (namedMap re)).
Proof.
  destruct (mapRe_Panic_iff None re m getResultIndex) as [Hne Hp];
    [intros v e; apply getResultIndex_not_Err|].
  assert (Hp' : mapRe None re (Some m) getResultIndex = Panic <->
     length (elems m) + length (spare m) < 2 \/
     exists name i, namedMap re !! name = Some i /\
       length (elems m) + length (spare m) < i * 2 + 2).
  { rewrite Hp, getResultIndex_Panic_iff. split.
    - intros [H0|(name & i & Hn & Hi)]; [left; lia|].
      right. exists name, i. by rewrite <- getResultIndex_Panic_iff.
    - intros [H0|(name & i & Hn & Hi)]; [left; lia|].
      right. exists name, i. by rewrite getResultIndex_Panic_iff. }
  split; [exact Hne|]. split; [exact Hp'|].
  rewrite (result_Ok_iff_not_Panic _ Hne), Hp'. split.
  - intros Hnot. split.
    + destruct (Nat.lt_ge_cases (length (elems m) + length (spare m)) 2)
        as [Hlt|]; [|assumption].
      destruct Hnot. by left.
    + intros name i Hn. cbn.
      destruct (Nat.lt_ge_cases (length (elems m) + length (spare m))
                  (i * 2 + 2)) as [Hlt|]; [|assumption].
      destruct Hnot. right. eauto.
  - intros [H0 Hall] [Hlt|(name & i & Hn & Hi)]; [lia|].
    specialize (Hall _ _ Hn). cbn in Hall. lia.
Qed.


(** ** The earlier package *)

(** X15. The earlier scanner, whose second argument [until] is 0 or the
    closing parenthesis (never the backslash or the opening parenthesis),
    returns what the current scanner returns, its two errors having the
    earlier texts: the argument [until] has no effect. *)
Theorem X15_earlier_scanner_agrees (in_ : list byte) (until : N) :
  until <> rune_backslash -> until <> rune_lparen ->
  regex_named.parseBytes in_ until = with_earlier_errors (parseBytes in_) /\
  regex_named.parse (string_of_list_byte in_)
  = with_earlier_errors (parseBytes in_).
Proof.
  intros Hb Hp. split; [by apply earlier_parseBytes|].
  unfold regex_named.parse. rewrite list_byte_of_string_of_list_byte.
  by apply earlier_parseBytes.
Qed.

Lemma X15_witness :
  regex_named.parseBytes (list_byte_of_string pat_trailing_backslash)
    regex_named.rune_rparen
  = with_earlier_errors
      (parseBytes (list_byte_of_string pat_trailing_backslash)) /\
  regex_named.parse
    (string_of_list_byte (list_byte_of_string pat_trailing_backslash))
  = with_earlier_errors
      (parseBytes (list_byte_of_string pat_trailing_backslash)).
Proof.
  apply (X15_earlier_scanner_agrees
           (list_byte_of_string pat_trailing_backslash)
           regex_named.rune_rparen);
    unfold regex_named.rune_rparen, rune_backslash, rune_lparen; lia.
Defined.

(** X16. The earlier builder never fails and keeps, for a name that
    names several groups, the last of them: a name has index [i] in its
    table exactly when it is the descriptor at position [i - 1], is not
    the descriptor of an unnamed group, and is not a descriptor at any
    later position. *)
Theorem X16_earlier_builder_keeps_the_last (names : list string)
    (name : string) (i : nat) :
  regex_named.buildMap names !! name = Some i <->
  exists j, i = j + 1 /\ names !! j = Some name /\
    name <> regex_named.errorString /\
    forall j', j < j' -> names !! j' <> Some name.
Proof.
  unfold regex_named.buildMap. rewrite earlier_buildMap_loop_lookup.
  split.
  - intros [(j & -> & Hj & Hn & Hlast)|[Hr _]].
    + exists j. auto.
    + by rewrite lookup_empty in Hr.
  - intros (j & -> & Hj & Hn & Hlast). left. exists j. auto.
Qed.

(** X17. Where the current [Compile] returns a value, the earlier
    [Compile] returns the same value; where the earlier one returns a
    value, the current one returns that value or the duplicate-name
    error; the two panic on the same patterns; and an error of the
    earlier one is the earlier form of an error of the current one. *)
Theorem X17_Compile_and_the_earlier_Compile `{Engine} (re : string) :
  (forall r, Compile re = Ok r -> regex_named.Compile re = Ok r) /\
  (forall r, regex_named.Compile re = Ok r ->
     Compile re = Ok r \/ Compile re = Err errDuplicateNamedGroup) /\
  (Compile re = Panic <-> regex_named.Compile re = Panic) /\
  (forall e, regex_named.Compile re = Err e ->
     exists e', Compile re = Err e' /\ (e = e' \/ e = earlier_error e')).
Proof.
  unfold Compile, regex_named.Compile, regex_named.parse.
  destruct (regexp_Compile re) as [c|e0].
  2:{ repeat apply conj; try done. intros e [= <-]. eauto. }
  rewrite earlier_parseBytes by discriminate.
  destruct (parseBytes (list_byte_of_string re)) as [ds|e1|];
    cbn [bind with_earlier_errors].
  - pose proof (earlier_buildMap_loop 0 ds ∅) as Hagree.
    fold (buildMap ds) (regex_named.buildMap ds) in Hagree.
    destruct (buildMap_loop_outcome 0 ds ∅) as [[tbl Hb]|Hb];
      fold (buildMap ds) in Hb; rewrite Hb; cbn [bind].
    + rewrite (Hagree _ Hb). repeat apply conj; try done. auto.
    + repeat apply conj; try done. auto.
  - repeat apply conj; try done. intros e [= <-]. eauto.
  - repeat apply conj; done.
Qed.

(** X18. The first [FindStringNamed], which takes a name, returns the
    empty string for a name that is not in the table; it panics for a name
    of the table when the engine finds no match; and where the current
    [FindStringNamed] returns a base and a mapping, it returns the value
    of the name in that mapping, or the empty string if the name is not in
    it. *)
Theorem X18_first_FindStringNamed `{Engine} (re : RegexpNamed Regexp)
    (s name : string) :
  (namedMap re !! name = None ->
   regex_named.FindStringNamed re s name = Ok EmptyString) /\
  (forall idx, namedMap re !! name = Some idx ->
     FindStringSubmatch (matcher re) s = None ->
     regex_named.FindStringNamed re s name = Panic) /\
  (forall base mp, FindStringNamed re s = Ok (base, Some mp) ->
     regex_named.FindStringNamed re s name
     = Ok (default EmptyString (mp !! name))).
Proof.
  unfold regex_named.FindStringNamed, FindStringNamed.
  repeat apply conj.
  - by intros ->.
  - by intros idx -> ->.
  - intros base mp Hr.
    destruct (FindStringSubmatch (matcher re) s) as [m|]; [|discriminate Hr].
    apply mapRe_Some_inv in Hr as (_ & [= ->] & Hall).
    rewrite lookup_omap. destruct (namedMap re !! name) as [idx|] eqn:Hn;
      [|reflexivity].
    cbn. rewrite projected_getResult.
    destruct (Hall _ _ Hn) as [x Hx]. apply getResult_Ok in Hx.
    unfold index. by rewrite Hx.
Qed.

(** ** The scanner at an escape marker *)

(** X19. For every pattern that the scanner accepts, the scanner rejects
    the pattern followed by a backslash with the trailing-backslash error;
    [Compile] then fails with the engine's error when the engine rejects
    that longer pattern, and with the trailing-backslash error when the
    engine accepts it. *)
Theorem X19_backslash_after_an_accepted_pattern (p : list byte)
    (ds : list string) (Hp : parseBytes p = Ok ds) :
  parseBytes (p ++ [x5c]) = Err errTrailingBackslash /\
  (forall (E : Engine) re, list_byte_of_string re = p ++ [x5c] ->
     (forall e, regexp_Compile re = inr e -> Compile re = Err e) /\
     (forall c, regexp_Compile re = inl c ->
        Compile re = Err errTrailingBackslash)).
Proof.
  pose proof (parseBytes_app_backslash _ _ Hp) as Hfail.
  split; [assumption|]. intros E re Hre. split.
  - apply Compile_engine_error.
  - intros c Hc. rewrite (Compile_engine_ok _ _ Hc).
    unfold scan_and_build. by rewrite Hre, Hfail.
Qed.

Lemma X19_witness :
  parseBytes (list_byte_of_string "(?P<name>\w+)" ++ [x5c])
  = Err errTrailingBackslash /\
  (forall (E : Engine) re,
     list_byte_of_string re = list_byte_of_string "(?P<name>\w+)" ++ [x5c] ->
     (forall e, regexp_Compile re = inr e -> Compile re = Err e) /\
     (forall c, regexp_Compile re = inl c ->
        Compile re = Err errTrailingBackslash)).
Proof.
  assert (Hp : parseBytes (list_byte_of_string "(?P<name>\w+)")
               = Ok ["name"%string]) by (vm_compute; reflexivity).
  exact (X19_backslash_after_an_accepted_pattern _ _ Hp).
Defined.

(** X20. A backslash followed by an ASCII byte is skipped by the scanner
    together with that byte, whatever the byte is: an escaped parenthesis
    or an escaped backslash yields no descriptor and no error. *)
Theorem X20_escaped_ascii_is_skipped (c : byte) (rest : list byte) :
  (Byte.to_N c <? 0x80)%N = true ->
  parseBytes (x5c :: c :: rest) = parseBytes rest.
Proof. apply parseBytes_escaped_ascii. Qed.

Lemma X20_witness :
  parseBytes (x5c :: x28 :: list_byte_of_string "a)")
  = parseBytes (list_byte_of_string "a)").
Proof.
  apply (X20_escaped_ascii_is_skipped x28 (list_byte_of_string "a)")).
  reflexivity.
Defined.

(** ** The operations on a raw match that is long enough *)

(** X21. When the engine's raw match has an element for index 0 and for
    every index of the table, [FindStringNamed] and [FindNamed] return its
    element 0 as the base and a mapping that maps each name of the table,
    of index [i], to element [i] of the raw match, and no other name. *)
Theorem X21_value_operations_on_a_match `{Engine}
    (re : RegexpNamed Regexp) :
  (forall s m, FindStringSubmatch (matcher re) s = Some m ->
     0 < length m ->
     map_Forall (fun _ i => i < length m) (namedMap re) ->
     exists base mp,
       FindStringNamed re s = Ok (base, Some mp) /\
       m !! 0 = Some base /\
       (forall name i, namedMap re !! name = Some i ->
          mp !! name = m !! i) /\
       (forall name, namedMap re !! name = None -> mp !! name = None)) /\
  (forall s m, FindSubmatch (matcher re) s = Some m ->
     0 < length m ->
     map_Forall (fun _ i => i < length m) (namedMap re) ->
     exists base mp,
       FindNamed re s = Ok (base, Some mp) /\
       m !! 0 = Some base /\
       (forall name i, namedMap re !! name = Some i ->
          mp !! name = m !! i) /\
       (forall name, namedMap re !! name = None -> mp !! name = None)).
Proof.
  split; intros s m Hm H0 Hall.
  - unfold FindStringNamed. rewrite Hm. by apply mapRe_getResult_spec.
  - unfold FindNamed. rewrite Hm. by apply mapRe_getResult_spec.
Qed.

Lemma X21_witness :
  exists base mp,
    @FindStringNamed test_engine
      {| namedMap := {[ "name"%string := 1; "age"%string := 2 ]};
         matcher := pat_name_age |} "foo 42"
    = Ok (base, Some mp) /\
    base = "foo 42"%string /\
    mp !! "name"%string = Some "foo"%string /\
    mp !! "age"%string = Some "42"%string /\
    mp !! "foo"%string = None.
Proof.
  destruct (@X21_value_operations_on_a_match test_engine
    {| namedMap := {[ "name"%string := 1; "age"%string := 2 ]};
       matcher := pat_name_age |}) as [Hs _].
  destruct (Hs "foo 42"%string ["foo 42"; "foo"; "42"]%string)
    as (base & mp & Hm & H0 & Hn & Hnone).
  - vm_compute. reflexivity.
  - cbn. lia.
  - apply (bool_decide_unpack _). vm_compute. exact I.
  - exists base, mp. split; [exact Hm|].
    split; [cbn in H0; congruence|].
    split; [apply (Hn "name"%string 1); reflexivity|].
    split; [apply (Hn "age"%string 2); reflexivity|].
    apply Hnone. reflexivity.
Defined.

(** X22. When the capacity of the engine's raw match reaches 2 and
    [2i + 2] for every index [i] of the table, [FindStringIndexNamed] and
    [FindIndexNamed] return the first two numbers of its backing array as
    the base and map each name of the table, of index [i], to the pair at
    [2i] and [2i + 1] of the backing array, and no other name; within the
    length of the raw match these are its own offsets. *)
Theorem X22_index_operations_on_a_match `{Engine}
    (re : RegexpNamed Regexp) :
  (forall s m, FindStringSubmatchIndex (matcher re) s = Some m ->
     2 <= length (elems m ++ spare m) ->
     map_Forall (fun _ i => i * 2 + 2 <= length (elems m ++ spare m))
       (namedMap re) ->
     exists a0 b0 mp,
       FindStringIndexNamed re s = Ok (Some [a0; b0], Some mp) /\
       (elems m ++ spare m) !! 0 = Some a0 /\
       (elems m ++ spare m) !! 1 = Some b0 /\
       (forall name i, namedMap re !! name = Some i ->
          exists a b, (elems m ++ spare m) !! (i * 2) = Some a /\
            (elems m ++ spare m) !! (i * 2 + 1) = Some b /\
            mp !! name = Some (Some [a; b]) /\
            (i * 2 + 2 <= length (elems m) ->
             elems m !! (i * 2) = Some a /\
             elems m !! (i * 2 + 1) = Some b)) /\
       (forall name, namedMap re !! name = None -> mp !! name = None)) /\
  (forall s m, FindSubmatchIndex (matcher re) s = Some m ->
     2 <= length (elems m ++ spare m) ->
     map_Forall (fun _ i => i * 2 + 2 <= length (elems m ++ spare m))
       (namedMap re) ->
     exists a0 b0 mp,
       FindIndexNamed re s = Ok (Some [a0; b0], Some mp) /\
       (elems m ++ spare m) !! 0 = Some a0 /\
       (elems m ++ spare m) !! 1 = Some b0 /\
       (forall name i, namedMap re !! name = Some i ->
          exists a b, (elems m ++ spare m) !! (i * 2) = Some a /\
            (elems m ++ spare m) !! (i * 2 + 1) = Some b /\
            mp !! name = Some (Some [a; b]) /\
            (i * 2 + 2 <= length (elems m) ->
             elems m !! (i * 2) = Some a /\
             elems m !! (i * 2 + 1) = Some b)) /\
       (forall name, namedMap re !! name = None -> mp !! name = None)).
Proof.
  assert (Hgen : forall m : slice Z,
     2 <= length (elems m ++ spare m) ->
     map_Forall (fun _ i => i * 2 + 2 <= length (elems m ++ spare m))
       (namedMap re) ->
     exists a0 b0 mp,
       mapRe None re (Some m) getResultIndex
       = Ok (Some [a0; b0], Some mp) /\
       (elems m ++ spare m) !! 0 = Some a0 /\
       (elems m ++ spare m) !! 1 = Some b0 /\
       (forall name i, namedMap re !! name = Some i ->
          exists a b, (elems m ++ spare m) !! (i * 2) = Some a /\
            (elems m ++ spare m) !! (i * 2 + 1) = Some b /\
            mp !! name = Some (Some [a; b]) /\
            (i * 2 + 2 <= length (elems m) ->
             elems m !! (i * 2) = Some a /\
             elems m !! (i * 2 + 1) = Some b)) /\
       (forall name, namedMap re !! name = None -> mp !! name = None)).
  { intros m H0 Hall.
    destruct (mapRe_getResultIndex_spec re m H0 Hall)
      as (a0 & b0 & mp & Hm & Ha0 & Hb0 & Hn & Hnone).
    exists a0, b0, mp. repeat (split; [assumption|]). split; [|assumption].
    intros name i Hi. destruct (Hn _ _ Hi) as (a & b & Ha & Hb & Hmp).
    exists a, b. repeat (split; [assumption|]). intros Hlen.
    rewrite lookup_app_l in Ha by lia. rewrite lookup_app_l in Hb by lia.
    auto. }
  split; intros s m Hm H0 Hall.
  - unfold FindStringIndexNamed. rewrite Hm. by apply Hgen.
  - unfold FindIndexNamed. rewrite Hm. by apply Hgen.
Qed.

Lemma X22_witness :
  exists mp,
    @FindStringIndexNamed test_engine
      {| namedMap := {[ "name"%string := 1; "age"%string := 2 ]};
         matcher := pat_name_age |} "foo 42"
    = Ok (Some [0; 6]%Z, Some mp) /\
    mp !! "name"%string = Some (Some [0; 3]%Z) /\
    mp !! "age"%string = Some (Some [4; 6]%Z).
Proof.
  destruct (@X22_index_operations_on_a_match test_engine
    {| namedMap := {[ "name"%string := 1; "age"%string := 2 ]};
       matcher := pat_name_age |}) as [Hs _].
  destruct (Hs "foo 42"%string (full [0; 6; 0; 3; 4; 6]%Z))
    as (a0 & b0 & mp & Hm & Ha0 & Hb0 & Hn & _).
  - vm_compute. reflexivity.
  - cbn. lia.
  - apply (bool_decide_unpack _). vm_compute. exact I.
  - cbn in Ha0, Hb0. injection Ha0 as <-. injection Hb0 as <-.
    exists mp. split; [exact Hm|]. split.
    + destruct (Hn "name"%string 1 eq_refl) as (a & b & Ha & Hb & Hmp & _).
      cbn in Ha, Hb. by injection Ha as <-; injection Hb as <-.
    + destruct (Hn "age"%string 2 eq_refl) as (a & b & Ha & Hb & Hmp & _).
      cbn in Ha, Hb. by injection Ha as <-; injection Hb as <-.
Defined.

(** ** The repeated-result operations *)

(** X23. Each of the four [FindAll] operations returns exactly when the
    single-result projection returns on every raw match of the engine,
    and then returns two sequences of the length of the raw sequence that
    hold, at each position, the base and the mapping of the single-result
    projection of the raw match at that position. *)
Theorem X23_FindAll_operations_are_pointwise `{Engine}
    (re : RegexpNamed Regexp) :
  (forall s n, pointwise_projection EmptyString re
     (FindAllStringSubmatch (matcher re) s n) getResult
     (FindAllStringNamed re s n)) /\
  (forall b n, pointwise_projection None re
     (FindAllSubmatch (matcher re) b n) getResult
     (FindAllNamed re b n)) /\
  (forall s n, pointwise_projection None re
     (FindAllStringSubmatchIndex (matcher re) s n) getResultIndex
     (FindAllStringIndexNamed re s n)) /\
  (forall b n, pointwise_projection None re
     (FindAllSubmatchIndex (matcher re) b n) getResultIndex
     (FindAllIndexNamed re b n)).
Proof. repeat apply conj; intros; apply mapReAll_pointwise. Qed.

Lemma X23_witness :
  exists bases maps,
    @FindAllStringNamed test_engine
      {| namedMap := {[ "name"%string := 1; "age"%string := 2 ]};
         matcher := pat_optional_name_age |} "foo 42 43" (-1)
    = Ok (bases, maps) /\
    length bases = 2 /\ length maps = 2 /\
    bases !! 1 = Some " 43"%string.
Proof.
  destruct (@X23_FindAll_operations_are_pointwise test_engine
    {| namedMap := {[ "name"%string := 1; "age"%string := 2 ]};
       matcher := pat_optional_name_age |}) as [Hs _].
  destruct (Hs "foo 42 43"%string (-1)%Z) as [Hpt Hok].
  destruct (proj2 Hok) as [[bases maps] Hout].
  { repeat constructor; eexists; vm_compute; reflexivity. }
  destruct (Hpt _ _ Hout) as (Hl1 & Hl2 & Hj).
  destruct (Hj 1 (Some [" 43"; EmptyString; "43"]%string) eq_refl)
    as (base & mp & Hb & _ & Hm).
  exists bases, maps. split; [exact Hout|]. split; [exact Hl1|].
  split; [exact Hl2|].
  rewrite Hb. vm_compute in Hm. congruence.
Defined.
